(** * kilroy-face-reddit: the Reddit face (face.py)

    A shallow embedding of [kilroy_face_reddit/face.py]: the conversion
    between native base-36 submission ids and 128-bit identifiers, the
    [State] bundle and its manifest (save / load / default build), the
    capability facade ([post], [score], [cleanup]) and the scrap pipeline
    ([_fetch], [scrap]).

    Python exceptions are values of [exn] carried by [result]; awaited
    collaborators are state transformers over an abstract outside world;
    the read/write lock of the state container is a pair of counters;
    asynchronous generators are resumption trees ([Gen]). *)

From Stdlib Require Import ZArith Ascii String List Lia Bool.
From stdpp Require Import base option list gmap strings.

Local Open Scope string_scope.
Local Open Scope list_scope.
Local Open Scope Z_scope.

(** ** Exceptions and results *)

(** Python exceptions.  [except Exception] catches the first kind only:
    [asyncio.CancelledError], [KeyboardInterrupt] and the like derive from
    [BaseException] directly. *)
Inductive exn : Type :=
| Exception (cls msg : string)
| BaseException (cls : string).

Definition ValueError (msg : string) : exn := Exception "ValueError" msg.

Definition is_Exception (e : exn) : bool :=
  match e with
  | Exception _ _ => true
  | BaseException _ => false
  end.

Inductive result (A : Type) : Type :=
| Ok (a : A)
| Raise (e : exn).
Arguments Ok {A} a.
Arguments Raise {A} e.

Definition is_ok {A} (r : result A) : bool :=
  match r with Ok _ => true | Raise _ => false end.

(** ** Identifier conversion: [int(s, 36)], [UUID(int=...)], [base_repr] *)

Module Base36.

Definition code (c : ascii) : Z := Z.of_N (N_of_ascii c).

(** ASCII white space as [int] strips it: TAB..CR, FS..US and SPACE. *)
Definition is_space (c : ascii) : bool :=
  ((9 <=? code c) && (code c <=? 13))
  || ((28 <=? code c) && (code c <=? 31))
  || (code c =? 32).

Fixpoint lstrip (cs : list ascii) : list ascii :=
  match cs with
  | c :: rest => if is_space c then lstrip rest else cs
  | [] => []
  end.

Definition strip (cs : list ascii) : list ascii :=
  rev (lstrip (rev (lstrip cs))).

(** Value of one digit character in base 36; letters in either case. *)
Definition digit_value (c : ascii) : option Z :=
  if (48 <=? code c) && (code c <=? 57) then Some (code c - 48)
  else if (97 <=? code c) && (code c <=? 122) then Some (code c - 87)
  else if (65 <=? code c) && (code c <=? 90) then Some (code c - 55)
  else None.

(** The digits after the sign: one underscore is allowed between two
    digits, nowhere else.  [prev] tells whether the previous character
    was a digit. *)
Fixpoint digits36 (acc : Z) (prev : bool) (cs : list ascii) : option Z :=
  match cs with
  | [] => if prev then Some acc else None
  | c :: rest =>
      if Ascii.eqb c "_"%char
      then (if prev then digits36 acc false rest else None)
      else match digit_value c with
           | Some d => digits36 (acc * 36 + d) true rest
           | None => None
           end
  end.

(** [int(s, 36)] on ASCII text: blanks around, an optional sign, then the
    digits.  (The cap that recent interpreters put on the number of digits
    is left out; it is far above the 25 digits of a 128-bit value.) *)
Definition int_base36 (s : string) : result Z :=
  let cs := strip (list_ascii_of_string s) in
  let '(sign, ds) :=
    match cs with
    | c :: rest =>
        if Ascii.eqb c "-"%char then (-1, rest)
        else if Ascii.eqb c "+"%char then (1, rest)
        else (1, cs)
    | [] => (1, cs)
    end in
  match digits36 0 false ds with
  | Some v => Ok (sign * v)
  | None => Raise (ValueError "invalid literal for int() with base 36")
  end.

(** A 128-bit identifier, [uuid.UUID]; only its [int] view is used. *)
Record UUID : Type := mkUUID { uuid_int : Z }.

(** [UUID(int=x)]. *)
Definition UUID_of_int (x : Z) : result UUID :=
  if (0 <=? x) && (x <? 2 ^ 128) then Ok (mkUUID x)
  else Raise (ValueError "int is out of range (need a 128-bit value)").

(** [digits[d]] for [digits = '0123456789ABCDEFGHIJKLMNOPQRSTUVWXYZ']. *)
Definition digit_char (d : Z) : ascii :=
  if d <? 10 then ascii_of_N (Z.to_N (48 + d))
  else ascii_of_N (Z.to_N (55 + d)).

(** The loop [while num: res.append(digits[num % base]); num //= base].
    The number of rounds is bounded by the bit length of [num]. *)
Fixpoint base_repr_loop (fuel : nat) (num base : Z) (res : list ascii)
  : list ascii :=
  match fuel with
  | O => res
  | S fuel' =>
      if num =? 0 then res
      else base_repr_loop fuel' (num / base) base
             (res ++ [digit_char (num mod base)])
  end.

(** [numpy.base_repr(number, base)] with the default padding. *)
Definition base_repr (number base : Z) : result string :=
  if 36 <? base
  then Raise (ValueError "Bases greater than 36 not handled in base_repr.")
  else if base <? 2
  then Raise (ValueError "Bases less than 2 not handled in base_repr.")
  else
    let num := Z.abs number in
    let res := base_repr_loop (S (Z.to_nat (Z.log2 num))) num base [] in
    let res := if number <? 0 then res ++ ["-"%char] else res in
    Ok (string_of_list_ascii
          (rev (match res with [] => ["0"%char] | _ => res end))).

(** [str.lower] on ASCII text. *)
Definition lower_char (c : ascii) : ascii :=
  if (65 <=? code c) && (code c <=? 90)
  then ascii_of_N (Z.to_N (code c + 32)) else c.

Definition lower (s : string) : string :=
  string_of_list_ascii (map lower_char (list_ascii_of_string s)).

(** [UUID(int=int(submission.id, 36))], as in [_fetch]. *)
Definition identifier_of (native : string) : result UUID :=
  match int_base36 native with
  | Ok x => UUID_of_int x
  | Raise e => Raise e
  end.

(** [base_repr(id.int, 36).lower()], as in [score]. *)
Definition native_id_of (id : UUID) : result string :=
  match base_repr (uuid_int id) 36 with
  | Ok s => Ok (lower s)
  | Raise e => Raise e
  end.

(** The ids the remote service issues: the lower-case base-36 numeral of
    a number, without sign, padding or leading zero, that fits 128 bits. *)
Definition is_native_digit (c : ascii) : bool :=
  ((48 <=? code c) && (code c <=? 57))
  || ((97 <=? code c) && (code c <=? 122)).

Definition canonical (cs : list ascii) : bool :=
  match cs with
  | [] => false
  | c :: rest =>
      forallb is_native_digit cs
      && (negb (Ascii.eqb c "0"%char) || match rest with [] => true | _ => false end)
  end.

Definition valid_native_id (s : string) : bool :=
  canonical (list_ascii_of_string s)
  && match int_base36 s with
     | Ok x => x <? 2 ^ 128
     | Raise _ => false
     end.

End Base36.

(** ** State-and-exception monad

    [SE S A] is a computation over a state [S] that returns a value or
    raises; the state reached is kept on both exits, so that a context
    manager can release what it holds when an exception passes through. *)

Definition SE (S A : Type) : Type := S -> result A * S.

Definition ret {S A} (a : A) : SE S A := fun s => (Ok a, s).
Definition raise {S A} (e : exn) : SE S A := fun s => (Raise e, s).
Definition lift {S A} (r : result A) : SE S A := fun s => (r, s).

Definition bind {S A B} (m : SE S A) (k : A -> SE S B) : SE S B :=
  fun s =>
    match m s with
    | (Ok a, s') => k a s'
    | (Raise e, s') => (Raise e, s')
    end.

Notation "x <- m ;; k" := (bind m (fun x => k))
  (at level 100, m at next level, right associativity).
Notation "m ;;; k" := (bind m (fun _ => k))
  (at level 100, right associativity).

(** ** The parts of the program that are not in face.py *)

(** [pathlib.Path], as its components; [directory / "poster"] appends one. *)
Definition Path : Type := list string.
Definition path_div (directory : Path) (name : string) : Path :=
  directory ++ [name].

(** [asyncpraw.Reddit], as [_build_client] constructs it. *)
Record Reddit : Type := mkReddit {
  reddit_client_id : string;
  reddit_client_secret : string;
  reddit_refresh_token : string;
  reddit_user_agent : string;
  reddit_ratelimit_seconds : Z;
}.

(** The remote service, the content types and the submission codec. *)
Class Externals : Type := {
  (** the world outside the face: remote service, disk, strategy internals *)
  W : Type;
  (** a parameter value, [Any] *)
  Any : Type;
  (** an external post, [Dict[str, Any]] *)
  Content : Type;
  (** the internal form of a post, [post.data] *)
  Data : Type;
  (** a score, [float] *)
  Score : Type;
  Datetime : Type;
  Subreddit : Type;
  Submission : Type;
  (** [submission.id], the native base-36 id *)
  submission_id : Submission -> string;
  (** [await client.subreddit(name)] *)
  reddit_subreddit : Reddit -> string -> SE W Subreddit;
  (** [await client.submission(id=...)] *)
  reddit_submission : Reddit -> string -> SE W Submission;
  (** [await client.close()] *)
  reddit_close : Reddit -> SE W unit;
  (** [(await Post.from_submission(submission)).data] *)
  post_from_submission : Submission -> SE W Data;
}.

Section Model.
Context {E : Externals}.

(** A collaborator call: it acts on the outside world only. *)
Definition Eff (A : Type) : Type := SE W A.

(** *** Strategies *)

(** A strategy instance of one slot: its [category], what it offers when
    it is [Savable] ([save(directory)]) and when it is [Configurable]
    ([cleanup()]), and the slot's own operations. *)
Record Strategy (Ops : Type) : Type := mkStrategy {
  category : string;
  savable : option (Path -> Eff unit);
  configurable : option (Eff unit);
  ops : Ops;
}.
Arguments mkStrategy {Ops}.
Arguments category {Ops}.
Arguments savable {Ops}.
Arguments configurable {Ops}.
Arguments ops {Ops}.

(** What [poster.post] returns: [post.id] (a [UUID]) and [post.url]. *)
Record PostRecord : Type := mkPostRecord {
  post_id : Base36.UUID;
  post_url : option string;
}.

Record ProcessorOps : Type := mkProcessorOps {
  to_internal : Content -> Eff Data;
  to_external : Data -> Eff Content;
}.
Record PosterOps : Type := mkPosterOps {
  poster_post : Subreddit -> Data -> Eff PostRecord;
}.
Record ScorerOps : Type := mkScorerOps {
  scorer_score : Submission -> Eff Score;
}.
Record ScoreModifierOps : Type := mkScoreModifierOps {
  modify : Submission -> Score -> Eff Score;
}.
(** [scraper.scrap(client, before, after)] is not awaited: it hands back
    the sequence of submissions, here a finite list. *)
Record ScraperOps : Type := mkScraperOps {
  scraper_scrap :
    Reddit -> option Datetime -> option Datetime -> list Submission;
}.
Record RestrictionOps : Type := mkRestrictionOps {
  check : Data -> Eff bool;
}.

Definition Processor := Strategy ProcessorOps.
Definition Poster := Strategy PosterOps.
Definition Scorer := Strategy ScorerOps.
Definition ScoreModifier := Strategy ScoreModifierOps.
Definition Scraper := Strategy ScraperOps.
Definition Restriction := Strategy RestrictionOps.

(** *** Configuration, state and manifest *)

(** [Dict[str, Any]] and [Dict[str, Dict[str, Any]]]. *)
Abbreviation Kwargs := (gmap string Any).
Abbreviation ParamsMap := (gmap string (gmap string Any)).

(** A value of the state dictionary: [None], a category name or a
    parameter mapping. *)
Inductive Value : Type :=
| VNone
| VStr (s : string)
| VParams (m : ParamsMap).

(** [class Params(SerializableModel)]. *)
Record Params : Type := mkParams {
  client_id : string;
  client_secret : string;
  refresh_token : string;
  user_agent : string;
  params_subreddit : string;
  ratelimit_seconds : Z;
  poster_type : string;
  params_posters_params : ParamsMap;
  scorer_type : string;
  params_scorers_params : ParamsMap;
  score_modifier_type : option string;
  params_score_modifiers_params : ParamsMap;
  scraper_type : string;
  params_scrapers_params : ParamsMap;
  restriction_type : option string;
  params_restrictions_params : ParamsMap;
}.

(** The fields of [Params] that have a default, at their default. *)
Definition default_params
  (client_id client_secret refresh_token user_agent subreddit : string)
  : Params :=
  mkParams client_id client_secret refresh_token user_agent subreddit
    3600 "basic" ∅ "relativeScore" ∅ None ∅ "frontpage" ∅ None ∅.

(** [class State].  The annotations of a dataclass are not enforced at
    run time: a [..._params] field holds whatever value it was given, a
    parameter mapping when the state was built from the configuration or
    saved by this program. *)
Record State : Type := mkState {
  client : Reddit;
  subreddit : Subreddit;
  processor : Processor;
  poster : Poster;
  posters_params : Value;
  scorer : Scorer;
  scorers_params : Value;
  score_modifier : option ScoreModifier;
  score_modifiers_params : Value;
  scraper : Scraper;
  scrapers_params : Value;
  restriction : option Restriction;
  restrictions_params : Value;
}.

Abbreviation StateDict := (gmap string Value).

Definition value_of_optional (c : option string) : Value :=
  match c with
  | Some s => VStr s
  | None => VNone
  end.

(** [mapping.get(category, {})], where [mapping] and [category] were
    read from the state dictionary or the configuration. *)
Definition get_kwargs (mapping category : Value) : result Kwargs :=
  match mapping with
  | VParams m =>
      match category with
      | VStr c => Ok (default ∅ (m !! c))
      | VNone => Ok ∅
      | VParams _ => Raise (Exception "TypeError" "unhashable type: 'dict'")
      end
  | VNone =>
      Raise (Exception "AttributeError"
               "'NoneType' object has no attribute 'get'")
  | VStr _ =>
      Raise (Exception "AttributeError" "'str' object has no attribute 'get'")
  end.

(** *** The generic helpers inherited from the server SDK

    [_build_generic], [_load_generic], [_save_state_dict] and
    [_load_state_dict] belong to the [Face] base class of the SDK; the face
    only calls them.  [Base Ops] is a categorizable base class ([Poster],
    [Scorer], ...) whose instances offer the operations [Ops]. *)
Class SDK : Type := {
  Base : Type -> Type;
  ProcessorBase : Base ProcessorOps;
  PosterBase : Base PosterOps;
  ScorerBase : Base ScorerOps;
  ScoreModifierBase : Base ScoreModifierOps;
  ScraperBase : Base ScraperOps;
  RestrictionBase : Base RestrictionOps;
  (** [await cls._build_generic(base, category=..., **kwargs)] *)
  build_generic :
    forall {Ops}, Base Ops -> Value -> Kwargs -> Eff (Strategy Ops);
  (** [await cls._load_generic(directory, base, category=..., **kwargs,
      default=...)].  Its result type [T] is that of [default]: the slot's
      instances, or an optional instance for a slot that may be empty; the
      first argument is the inclusion of the instances in [T]. *)
  load_generic :
    forall {Ops T}, (Strategy Ops -> T) -> Path -> Base Ops -> Value ->
                    Kwargs -> Eff T -> Eff T;
  (** [await cls._save_state_dict(state_dict, directory)] *)
  save_state_dict : StateDict -> Path -> Eff unit;
  (** [await self._load_state_dict(directory)] *)
  load_state_dict : Path -> Eff StateDict;
}.

Context {K : SDK}.

(** [cls.post_type]: the category of the face class, which names the
    processor. *)
Variable post_type : string.

(** *** Default build ([_build_client] ... [_build_default_state]) *)

Definition _build_client (params : Params) : Eff Reddit :=
  ret (mkReddit (client_id params) (client_secret params)
         (refresh_token params) (user_agent params)
         (ratelimit_seconds params)).

Definition _build_subreddit (client : Reddit) (params : Params)
  : Eff Subreddit :=
  reddit_subreddit client (params_subreddit params).

Definition _build_processor : Eff Processor :=
  build_generic ProcessorBase (VStr post_type) ∅.

Definition _build_poster (params : Params) : Eff Poster :=
  build_generic PosterBase (VStr (poster_type params))
    (default ∅ (params_posters_params params !! poster_type params)).

Definition _build_scorer (params : Params) : Eff Scorer :=
  build_generic ScorerBase (VStr (scorer_type params))
    (default ∅ (params_scorers_params params !! scorer_type params)).

Definition _build_score_modifier (params : Params)
  : Eff (option ScoreModifier) :=
  match score_modifier_type params with
  | None => ret None
  | Some c =>
      x <- build_generic ScoreModifierBase (VStr c)
             (default ∅ (params_score_modifiers_params params !! c)) ;;
      ret (Some x)
  end.

Definition _build_scraper (params : Params) : Eff Scraper :=
  build_generic ScraperBase (VStr (scraper_type params))
    (default ∅ (params_scrapers_params params !! scraper_type params)).

Definition _build_restriction (params : Params) : Eff (option Restriction) :=
  match restriction_type params with
  | None => ret None
  | Some c =>
      x <- build_generic RestrictionBase (VStr c)
             (default ∅ (params_restrictions_params params !! c)) ;;
      ret (Some x)
  end.

Definition _build_default_state (params : Params) : Eff State :=
  client <- _build_client params ;;
  subreddit <- _build_subreddit client params ;;
  processor <- _build_processor ;;
  poster <- _build_poster params ;;
  scorer <- _build_scorer params ;;
  score_modifier <- _build_score_modifier params ;;
  scraper <- _build_scraper params ;;
  restriction <- _build_restriction params ;;
  ret (mkState client subreddit processor
         poster (VParams (params_posters_params params))
         scorer (VParams (params_scorers_params params))
         score_modifier (VParams (params_score_modifiers_params params))
         scraper (VParams (params_scrapers_params params))
         restriction (VParams (params_restrictions_params params))).

(** *** Saving ([_save_processor] ... [_save_state]) *)

(** [if isinstance(x, Savable): await x.save(directory / name)] *)
Definition save_if_savable {Ops} (x : Strategy Ops) (directory : Path)
  (name : string) : Eff unit :=
  match savable x with
  | Some save => save (path_div directory name)
  | None => ret tt
  end.

(** [isinstance(None, Savable)] is false. *)
Definition save_optional {Ops} (x : option (Strategy Ops)) (directory : Path)
  (name : string) : Eff unit :=
  match x with
  | Some i => save_if_savable i directory name
  | None => ret tt
  end.

Definition _save_processor (state : State) (directory : Path) : Eff unit :=
  save_if_savable (processor state) directory "processor".
Definition _save_poster (state : State) (directory : Path) : Eff unit :=
  save_if_savable (poster state) directory "poster".
Definition _save_scorer (state : State) (directory : Path) : Eff unit :=
  save_if_savable (scorer state) directory "scorer".
Definition _save_score_modifier (state : State) (directory : Path)
  : Eff unit :=
  save_optional (score_modifier state) directory "score_modifier".
Definition _save_scraper (state : State) (directory : Path) : Eff unit :=
  save_if_savable (scraper state) directory "scraper".
Definition _save_restriction (state : State) (directory : Path) : Eff unit :=
  save_optional (restriction state) directory "restriction".

Definition _create_state_dict (state : State) : StateDict :=
  <["processor_type" := VStr (category (processor state))]>
  (<["poster_type" := VStr (category (poster state))]>
  (<["scorer_type" := VStr (category (scorer state))]>
  (<["score_modifier_type" :=
       value_of_optional (category <$> score_modifier state)]>
  (<["scraper_type" := VStr (category (scraper state))]>
  (<["restriction_type" :=
       value_of_optional (category <$> restriction state)]>
  (<["posters_params" := posters_params state]>
  (<["scorers_params" := scorers_params state]>
  (<["score_modifiers_params" := score_modifiers_params state]>
  (<["scrapers_params" := scrapers_params state]>
  (<["restrictions_params" := restrictions_params state]>
   ∅)))))))))).

Definition _save_state (state : State) (directory : Path) : Eff unit :=
  _save_processor state directory ;;;
  _save_poster state directory ;;;
  _save_scorer state directory ;;;
  _save_score_modifier state directory ;;;
  _save_scraper state directory ;;;
  _save_restriction state directory ;;;
  save_state_dict (_create_state_dict state) directory.

(** *** Loading ([_load_processor] ... [_load_saved_state]) *)

(** [state_dict.get(key, fallback)] *)
Definition dict_get (state_dict : StateDict) (key : string) (fallback : Value)
  : Value :=
  default fallback (state_dict !! key).

Definition _load_processor (directory : Path) (state_dict : StateDict)
  : Eff Processor :=
  let category := dict_get state_dict "processor_type" (VStr post_type) in
  load_generic id (path_div directory "processor") ProcessorBase category ∅
    _build_processor.

Definition _load_poster (directory : Path) (state_dict : StateDict)
  (params : Params) : Eff Poster :=
  let category :=
    dict_get state_dict "poster_type" (VStr (poster_type params)) in
  kwargs <- lift (get_kwargs
                    (dict_get state_dict "posters_params"
                       (VParams (params_posters_params params)))
                    category) ;;
  load_generic id (path_div directory "poster") PosterBase category kwargs
    (_build_poster params).

Definition _load_scorer (directory : Path) (state_dict : StateDict)
  (params : Params) : Eff Scorer :=
  let category :=
    dict_get state_dict "scorer_type" (VStr (scorer_type params)) in
  kwargs <- lift (get_kwargs
                    (dict_get state_dict "scorers_params"
                       (VParams (params_scorers_params params)))
                    category) ;;
  load_generic id (path_div directory "scorer") ScorerBase category kwargs
    (_build_scorer params).

Definition _load_score_modifier (directory : Path) (state_dict : StateDict)
  (params : Params) : Eff (option ScoreModifier) :=
  let category :=
    match state_dict !! "score_modifier_type" with
    | Some v => v
    | None => value_of_optional (score_modifier_type params)
    end in
  match category with
  | VNone => ret None
  | _ =>
      kwargs <- lift (get_kwargs
                        (dict_get state_dict "score_modifiers_params"
                           (VParams (params_score_modifiers_params params)))
                        category) ;;
      load_generic Some (path_div directory "score_modifier")
        ScoreModifierBase category kwargs (_build_score_modifier params)
  end.

Definition _load_scraper (directory : Path) (state_dict : StateDict)
  (params : Params) : Eff Scraper :=
  let category :=
    dict_get state_dict "scraper_type" (VStr (scraper_type params)) in
  kwargs <- lift (get_kwargs
                    (dict_get state_dict "scrapers_params"
                       (VParams (params_scrapers_params params)))
                    category) ;;
  load_generic id (path_div directory "scraper") ScraperBase category kwargs
    (_build_scraper params).

Definition _load_restriction (directory : Path) (state_dict : StateDict)
  (params : Params) : Eff (option Restriction) :=
  let category :=
    match state_dict !! "restriction_type" with
    | Some v => v
    | None => value_of_optional (restriction_type params)
    end in
  match category with
  | VNone => ret None
  | _ =>
      kwargs <- lift (get_kwargs
                        (dict_get state_dict "restrictions_params"
                           (VParams (params_restrictions_params params)))
                        category) ;;
      load_generic Some (path_div directory "restriction")
        RestrictionBase category kwargs (_build_restriction params)
  end.

Definition _load_saved_state (directory : Path) (params : Params)
  : Eff State :=
  state_dict <- load_state_dict directory ;;
  client <- _build_client params ;;
  subreddit <- _build_subreddit client params ;;
  processor <- _load_processor directory state_dict ;;
  poster <- _load_poster directory state_dict params ;;
  scorer <- _load_scorer directory state_dict params ;;
  score_modifier <- _load_score_modifier directory state_dict params ;;
  scraper <- _load_scraper directory state_dict params ;;
  restriction <- _load_restriction directory state_dict params ;;
  ret (mkState client subreddit processor
         poster
         (dict_get state_dict "posters_params"
            (VParams (params_posters_params params)))
         scorer
         (dict_get state_dict "scorers_params"
            (VParams (params_scorers_params params)))
         score_modifier
         (dict_get state_dict "score_modifiers_params"
            (VParams (params_score_modifiers_params params)))
         scraper
         (dict_get state_dict "scrapers_params"
            (VParams (params_scrapers_params params)))
         restriction
         (dict_get state_dict "restrictions_params"
            (VParams (params_restrictions_params params)))).

(** *** The state container: its lock, and the calls the face makes *)

(** The collaborator operations the face invokes. *)
Inductive Call : Type :=
| ProcessorToInternal
| ProcessorToExternal
| RestrictionCheck
| PosterPost
| ScorerScore
| ScoreModifierModify
| PostFromSubmission
| ClientSubmission
| ClientClose
| SlotCleanup (slot : string).

(** What a face operation runs on: the outside world, how many read and
    write locks of the state container are held, and the collaborator
    calls made so far, oldest first. *)
Record Sigma : Type := mkSigma {
  world : W;
  readers : nat;
  writers : nat;
  calls : list Call;
}.

Definition M (A : Type) : Type := SE Sigma A.

(** [await collaborator(...)]: the collaborator acts on the world and the
    call is recorded. *)
Definition call {A} (c : Call) (f : Eff A) : M A :=
  fun σ =>
    let (r, w) := f (world σ) in
    (r, mkSigma w (readers σ) (writers σ) (calls σ ++ [c])).

Definition acquire_read (σ : Sigma) : Sigma :=
  mkSigma (world σ) (S (readers σ)) (writers σ) (calls σ).
Definition release_read (σ : Sigma) : Sigma :=
  mkSigma (world σ) (Nat.pred (readers σ)) (writers σ) (calls σ).
Definition acquire_write (σ : Sigma) : Sigma :=
  mkSigma (world σ) (readers σ) (S (writers σ)) (calls σ).
Definition release_write (σ : Sigma) : Sigma :=
  mkSigma (world σ) (readers σ) (Nat.pred (writers σ)) (calls σ).

(** [async with self.state.read_lock() as state: body]: the lock is
    released on every exit of the body. *)
Definition read_lock {A} (body : M A) : M A :=
  fun σ => let (r, σ') := body (acquire_read σ) in (r, release_read σ').

(** [async with self.state.write_lock() as state: body] *)
Definition write_lock {A} (body : M A) : M A :=
  fun σ => let (r, σ') := body (acquire_write σ) in (r, release_write σ').

(** *** [cleanup] *)

(** [if isinstance(x, Configurable): await x.cleanup()] *)
Definition cleanup_if_configurable {Ops} (slot : string) (x : Strategy Ops)
  : M unit :=
  match configurable x with
  | Some cleanup => call (SlotCleanup slot) cleanup
  | None => ret tt
  end.

(** [isinstance(None, Configurable)] is false. *)
Definition cleanup_optional {Ops} (slot : string) (x : option (Strategy Ops))
  : M unit :=
  match x with
  | Some i => cleanup_if_configurable slot i
  | None => ret tt
  end.

(** [RedditFaceBase.cleanup] *)
Definition base_cleanup (state : State) : M unit :=
  write_lock
    (cleanup_if_configurable "processor" (processor state) ;;;
     cleanup_if_configurable "poster" (poster state) ;;;
     cleanup_if_configurable "scorer" (scorer state) ;;;
     cleanup_optional "score_modifier" (score_modifier state) ;;;
     cleanup_if_configurable "scraper" (scraper state) ;;;
     cleanup_optional "restriction" (restriction state)).

(** [RedditFace.cleanup] *)
Definition cleanup (state : State) : M unit :=
  base_cleanup state ;;;
  write_lock (call ClientClose (reddit_close (client state))).

(** *** [post] and [score] *)

Definition post (state : State) (content : Content)
  : M (Base36.UUID * option string) :=
  post <- read_lock
            (data <- call ProcessorToInternal
                       (to_internal (ops (processor state)) content) ;;
             match restriction state with
             | Some r =>
                 allowed <- call RestrictionCheck (check (ops r) data) ;;
                 if allowed then ret tt
                 else raise (ValueError "Post is not allowed to be posted.")
             | None => ret tt
             end ;;;
             call PosterPost
               (poster_post (ops (poster state)) (subreddit state) data)) ;;
  ret (post_id post, post_url post).

(** [score = await state.scorer.score(submission)], then
    [score = await state.score_modifier.modify(submission, score)] when a
    modifier is set; [score] and [_fetch] both do this. *)
Definition score_submission (state : State) (submission : Submission)
  : M Score :=
  score <- call ScorerScore (scorer_score (ops (scorer state)) submission) ;;
  match score_modifier state with
  | Some m => call ScoreModifierModify (modify (ops m) submission score)
  | None => ret score
  end.

Definition score (state : State) (id : Base36.UUID) : M Score :=
  read_lock
    (native <- lift (Base36.native_id_of id) ;;
     submission <- call ClientSubmission
                     (reddit_submission (client state) native) ;;
     score_submission state submission).

(** *** The scrap pipeline ([_fetch], [scrap]) *)

Definition Triple : Type := Base36.UUID * Content * Score.

(** An asynchronous generator that was asked for its next item: it
    returned ([StopAsyncIteration] for its consumer), raised, or yielded an
    item and is suspended.  A suspended generator is resumed by the next
    request ([resume]) or closed ([close], which raises [GeneratorExit] at
    the [yield] and so leaves the context managers around it). *)
Inductive Gen (T : Type) : Type :=
| Returned (σ : Sigma)
| Raised (e : exn) (σ : Sigma)
| Yielded (item : T) (σ : Sigma)
    (resume : Sigma -> Gen T) (close : Sigma -> Sigma).
Arguments Returned {T} σ.
Arguments Raised {T} e σ.
Arguments Yielded {T} item σ resume close.

(** [post = await Post.from_submission(submission)] and
    [data = await state.processor.to_external(post.data)], the body of the
    inner [try]. *)
Definition translate (state : State) (submission : Submission) : M Content :=
  post_data <- call PostFromSubmission (post_from_submission submission) ;;
  call ProcessorToExternal (to_external (ops (processor state)) post_data).

(** [_fetch]: one round of [while True] per submission, each inside
    [async with self.state.read_lock()].  [break], [continue] and a
    propagating exception leave the [async with] and release the lock; the
    [yield] is inside it. *)
Fixpoint _fetch (state : State) (submissions : list Submission) (σ : Sigma)
  : Gen Triple :=
  let σ := acquire_read σ in
  match submissions with
  | [] => Returned (release_read σ)
  | submission :: rest =>
      match (post_id <- lift (Base36.identifier_of
                                (submission_id submission)) ;;
             score <- score_submission state submission ;;
             ret (post_id, score)) σ with
      | (Raise e, σ) => Raised e (release_read σ)
      | (Ok (post_id, score), σ) =>
          match translate state submission σ with
          | (Ok data, σ) =>
              Yielded (post_id, data, score) σ
                (fun σ' => _fetch state rest (release_read σ'))
                release_read
          | (Raise e, σ) =>
              if is_Exception e then _fetch state rest (release_read σ)
              else Raised e (release_read σ)
          end
      end
  end.

(** [aiostream.stream.take(source, n)]:
    [if n <= 0: return], then
    [async for i, item in enumerate(source): yield item;
     if i >= n - 1: return]; leaving closes the source. *)
Fixpoint take_loop {T} (n i : Z) (g : Gen T) : Gen T :=
  match g with
  | Returned σ => Returned σ
  | Raised e σ => Raised e σ
  | Yielded item σ resume close =>
      Yielded item σ
        (fun σ' =>
           if n - 1 <=? i then Returned (close σ')
           else take_loop n (i + 1) (resume σ'))
        close
  end.

Definition take {T} (source : Sigma -> Gen T) (n : Z) : Sigma -> Gen T :=
  fun σ => if n <=? 0 then Returned σ else take_loop n 0 (source σ).

(** [scrap]: the submissions are obtained under a read lock of their own;
    every item of [posts] is yielded on to the caller. *)
Definition scrap (state : State) (limit : option Z)
  (before after : option Datetime) : Sigma -> Gen Triple :=
  fun σ =>
    let σ := acquire_read σ in
    let submissions :=
      scraper_scrap (ops (scraper state)) (client state) before after in
    let σ := release_read σ in
    let posts := _fetch state submissions in
    match limit with
    | Some n => take posts n σ
    | None => posts σ
    end.

(** A caller that takes every item: the items in the order received, how
    the stream ended and the state it ended in. *)
Fixpoint drain {T} (g : Gen T) : list T * result unit * Sigma :=
  match g with
  | Returned σ => ([], Ok tt, σ)
  | Raised e σ => ([], Raise e, σ)
  | Yielded item σ resume _ =>
      let '(items, r, σ') := drain (resume σ) in (item :: items, r, σ')
  end.

(** The state in which the generator stands: where it ended, or where it
    is suspended while its consumer holds the item. *)
Definition gen_sigma {T} (g : Gen T) : Sigma :=
  match g with
  | Returned σ => σ
  | Raised _ σ => σ
  | Yielded _ σ _ _ => σ
  end.

(** The generator after [k] further requests of its consumer. *)
Fixpoint advance {T} (k : nat) (g : Gen T) : Gen T :=
  match k, g with
  | S k', Yielded _ σ resume _ => advance k' (resume σ)
  | _, _ => g
  end.

(** [await generator.aclose()] *)
Definition aclose {T} (g : Gen T) : Sigma :=
  match g with
  | Yielded _ σ _ close => close σ
  | Returned σ => σ
  | Raised _ σ => σ
  end.

(** *** The poster's record *)

(** What the remote service answers to a submission: the native item,
    with its native base-36 id and, when it has one, its public URL. *)
Record NativeItem : Type := mkNativeItem {
  native_id : string;
  native_url : option string;
}.

(** Modelled from the spec: the poster strategies (posters.py) are not
    among the sources.  A poster posts the internal form to the collection
    and the remote service answers with the native item (section 6); the
    identifier of the new item is the 128-bit value derived from its native
    id by reading it as a base-36 integer (section 3), and the locator is
    the item's public URL when it has one.  [submit] is the remote call. *)
Definition remote_poster (submit : Subreddit -> Data -> Eff NativeItem)
  : PosterOps :=
  mkPosterOps
    (fun subreddit data =>
       item <- submit subreddit data ;;
       id <- lift (Base36.identifier_of (native_id item)) ;;
       ret (mkPostRecord id (native_url item))).

End Model.

Abbreviation Kwargs := (gmap string Any).
Abbreviation ParamsMap := (gmap string (gmap string Any)).
Abbreviation StateDict := (gmap string Value).

Arguments mkStrategy {E Ops}.
Arguments category {E Ops}.
Arguments savable {E Ops}.
Arguments configurable {E Ops}.
Arguments ops {E Ops}.
Arguments Returned {E T} σ.
Arguments Raised {E T} e σ.
Arguments Yielded {E T} item σ resume close.

(** * The vocabulary of the properties *)

(** ** Numerals *)

Section Base36Vocabulary.
Import Base36.

(** Everything the proofs need to know about one character of a native
    id, as a check that computes. *)
Definition native_digit_check (c : ascii) : bool :=
  match digit_value c with
  | Some d =>
      (0 <=? d) && (d <? 36)
      && Ascii.eqb (lower_char (digit_char d)) c
      && negb (is_space c)
      && negb (Ascii.eqb c "_"%char)
      && negb (Ascii.eqb c "-"%char)
      && negb (Ascii.eqb c "+"%char)
      && Bool.eqb (d =? 0) (Ascii.eqb c "0"%char)
  | None => false
  end.

(** The value of a digit of a native id. *)
Definition dv (c : ascii) : Z := default 0 (digit_value c).

(** Horner evaluation of a digit string, the number [int] computes. *)
Definition horner (acc : Z) (cs : list ascii) : Z :=
  fold_left (fun a c => a * 36 + dv c) cs acc.

(** A digit string without a leading zero: empty, or starting with a
    digit other than ["0"]. *)
Definition no_leading_zero (cs : list ascii) : Prop :=
  match cs with
  | [] => True
  | c :: _ => c <> "0"%char
  end.

(** The lower-case digit of value [d]. *)
Definition native_char (d : Z) : ascii :=
  if d <? 10 then ascii_of_N (Z.to_N (48 + d))
  else ascii_of_N (Z.to_N (87 + d)).

Definition native_char_check (d : Z) : bool :=
  is_native_digit (native_char d)
  && (dv (native_char d) =? d)
  && Bool.eqb (Ascii.eqb (native_char d) "0"%char) (d =? 0).

End Base36Vocabulary.

(** ** Runs of the pipeline *)

Section PipelineVocabulary.
Context {E : Externals}.
Import Base36.

(** [m] ends with [r] whatever state it is run in. *)
Definition outcome {A} (m : M A) (r : result A) : Prop :=
  forall σ, (m σ).1 = r.

(** [m] leaves the lock counters as it found them. *)
Definition lock_neutral {A} (m : M A) : Prop :=
  forall σ, readers (m σ).2 = readers σ /\ writers (m σ).2 = writers σ.

(** What the pipeline does with one submission: it emits a triple, skips
    the submission, or aborts the stream with an exception. *)
Inductive Behaviour : Type :=
| Emits (t : Triple)
| Skipped
| Aborts (e : exn).

(** The submission [s] behaves as [b] under the strategies of [st]:
    - it is emitted when its id converts, it is scored and translated;
    - it is skipped when its id converts, it is scored, and translation
      raises an [Exception];
    - it aborts the stream when its id does not convert, when scoring
      raises, or when translation raises outside [Exception]. *)
Definition behaves (st : State) (s : Submission) (b : Behaviour) : Prop :=
  match b with
  | Emits (id, data, score) =>
      identifier_of (submission_id s) = Ok id
      /\ outcome (score_submission st s) (Ok score)
      /\ outcome (translate st s) (Ok data)
  | Skipped =>
      exists id score e,
        identifier_of (submission_id s) = Ok id
        /\ outcome (score_submission st s) (Ok score)
        /\ outcome (translate st s) (Raise e)
        /\ is_Exception e = true
  | Aborts e =>
      identifier_of (submission_id s) = Raise e
      \/ (exists id,
            identifier_of (submission_id s) = Ok id
            /\ outcome (score_submission st s) (Raise e))
      \/ (exists id score,
            identifier_of (submission_id s) = Ok id
            /\ outcome (score_submission st s) (Ok score)
            /\ outcome (translate st s) (Raise e)
            /\ is_Exception e = false)
  end.

(** The submissions the pipeline gets to, with what each of them does;
    nothing after an abort is looked at. *)
Inductive run (st : State) : list Submission -> list Behaviour -> Prop :=
| run_nil : run st [] []
| run_emit s rest t bs :
    behaves st s (Emits t) -> run st rest bs ->
    run st (s :: rest) (Emits t :: bs)
| run_skip s rest bs :
    behaves st s Skipped -> run st rest bs ->
    run st (s :: rest) (Skipped :: bs)
| run_abort s rest e :
    behaves st s (Aborts e) -> run st (s :: rest) [Aborts e].

(** The triples of a run, and how it ends. *)
Fixpoint emitted_of (bs : list Behaviour) : list Triple :=
  match bs with
  | [] => []
  | Emits t :: rest => t :: emitted_of rest
  | Skipped :: rest => emitted_of rest
  | Aborts _ :: _ => []
  end.

Fixpoint ending_of (bs : list Behaviour) : result unit :=
  match bs with
  | [] => Ok tt
  | Aborts e :: _ => Raise e
  | _ :: rest => ending_of rest
  end.

(** What a caller of the export sees of a run under a limit: the first
    [n] triples, and the run's ending unless the limit stopped it. *)
Definition export_of (limit : option Z) (bs : list Behaviour)
  : list Triple * result unit :=
  match limit with
  | None => (emitted_of bs, ending_of bs)
  | Some n =>
      (firstn (Z.to_nat n) (emitted_of bs),
       if n <=? Z.of_nat (length (emitted_of bs)) then Ok tt
       else ending_of bs)
  end.

(** The number of submissions of a run that were translated and emitted. *)
Definition is_emitted (b : Behaviour) : bool :=
  match b with Emits _ => true | _ => false end.

(** The limit lets [m] triples through. *)
Definition limit_admits (limit : option Z) (m : nat) : Prop :=
  match limit with
  | None => True
  | Some n => Z.of_nat m <= n
  end.

(** The scoring of [k] fails with [e]: the scorer raises [e], or the
    scorer returns a score and the modifier that is set raises [e] on
    it. *)
Definition scoring_fails (st : State) (k : Submission) (e : exn) : Prop :=
  (forall w, (scorer_score (ops (scorer st)) k w).1 = Raise e)
  \/ (exists m raw,
        score_modifier st = Some m
        /\ (forall w, (scorer_score (ops (scorer st)) k w).1 = Ok raw)
        /\ (forall w, (modify (ops m) k raw w).1 = Raise e)).

End PipelineVocabulary.

(** ** Calls of a cleanup *)

Section CleanupVocabulary.
Context {E : Externals}.

(** A collaborator operation that succeeds whenever it is called. *)
Definition always_ok (f : Eff unit) : Prop :=
  forall w, exists w', f w = (Ok tt, w').

(** The cleanup operations of the slot instances that are
    [Configurable], in the order of the slots. *)
Definition cleanup_of {Ops} (slot : string) (x : Strategy Ops)
  : list (string * Eff unit) :=
  match configurable x with
  | Some c => [(slot, c)]
  | None => []
  end.

Definition cleanup_of_optional {Ops} (slot : string)
  (x : option (Strategy Ops)) : list (string * Eff unit) :=
  match x with
  | Some i => cleanup_of slot i
  | None => []
  end.

Definition slot_cleanups (st : State) : list (string * Eff unit) :=
  cleanup_of "processor" (processor st)
  ++ cleanup_of "poster" (poster st)
  ++ cleanup_of "scorer" (scorer st)
  ++ cleanup_of_optional "score_modifier" (score_modifier st)
  ++ cleanup_of "scraper" (scraper st)
  ++ cleanup_of_optional "restriction" (restriction st).

Definition slot_calls (cleanups : list (string * Eff unit)) : list Call :=
  map (fun c => SlotCleanup c.1) cleanups.

(** The calls of one [cleanup]: the slots, then the client. *)
Definition cleanup_calls (st : State) : list Call :=
  slot_calls (slot_cleanups st) ++ [ClientClose].

(** Running collaborator operations one after the other, up to the first
    that raises. *)
Fixpoint run_all (fs : list (Eff unit)) : Eff unit :=
  match fs with
  | [] => ret tt
  | f :: rest => f ;;; run_all rest
  end.

(** The collaborator operations of one [cleanup], each with the call it
    is recorded as: the cleanups of the slots, then the closing of the
    client. *)
Definition cleanup_steps (st : State) : list (Call * Eff unit) :=
  map (fun c => (SlotCleanup c.1, c.2)) (slot_cleanups st)
  ++ [(ClientClose, reddit_close (client st))].

(** Running recorded operations one after the other, up to the first
    that raises: the outcome, the world it leaves and the calls made. *)
Fixpoint run_logged (steps : list (Call * Eff unit)) (w : W)
  : result unit * W * list Call :=
  match steps with
  | [] => (Ok tt, w, [])
  | (c, f) :: rest =>
      match f w with
      | (Ok _, w1) =>
          let '(r, w2, cs) := run_logged rest w1 in (r, w2, c :: cs)
      | (Raise e, w1) => (Raise e, w1, [c])
      end
  end.

(** [m] does what running [steps] does, and gives the locks back. *)
Definition performs (m : M unit) (steps : list (Call * Eff unit)) : Prop :=
  forall σ,
    m σ = (let '(r, w, cs) := run_logged steps (world σ) in
           (r, mkSigma w (readers σ) (writers σ) (calls σ ++ cs))).

End CleanupVocabulary.

(** ** Requests to the SDK *)

Section LifecycleVocabulary.
Context {E : Externals} {K : SDK}.
Variable post_type : string.



(** The six slots and the keys of each in the state dictionary. *)
Inductive Slot : Type :=
| ProcessorSlot
| PosterSlot
| ScorerSlot
| ScoreModifierSlot
| ScraperSlot
| RestrictionSlot.

Definition slot_keys (slot : Slot) : list string :=
  match slot with
  | ProcessorSlot => ["processor_type"]
  | PosterSlot => ["poster_type"; "posters_params"]
  | ScorerSlot => ["scorer_type"; "scorers_params"]
  | ScoreModifierSlot => ["score_modifier_type"; "score_modifiers_params"]
  | ScraperSlot => ["scraper_type"; "scrapers_params"]
  | RestrictionSlot => ["restriction_type"; "restrictions_params"]
  end.

(** A mandatory slot is resolved as by the default build when the loader
    is asked for the category [c] and the parameters [kwargs] that the
    builder is asked for, in the slot's directory and with the default
    build as fallback. *)
Definition same_request {Ops} (base : Base Ops) (directory : Path)
  (name : string) (c : string) (kwargs : Kwargs)
  (load build : Eff (Strategy Ops)) : Prop :=
  build = build_generic base (VStr c) kwargs
  /\ load = load_generic id (path_div directory name) base (VStr c) kwargs
              build.

(** An optional slot: without a category both give no instance; with the
    category [c] the loader is asked for what the builder is asked for. *)
Definition same_optional_request {Ops} (base : Base Ops) (directory : Path)
  (name : string) (c : option string) (mapping : ParamsMap)
  (load build : Eff (option (Strategy Ops))) : Prop :=
  match c with
  | None => build = ret None /\ load = ret None
  | Some c =>
      build = (x <- build_generic base (VStr c)
                      (default ∅ (mapping !! c)) ;;
               ret (Some x))
      /\ load = load_generic Some (path_div directory name) base (VStr c)
                  (default ∅ (mapping !! c)) build
  end.

(** What the state gets for a slot, with the category and the parameters
    of the configuration: the instance and, but for the processor, the
    parameter mapping. *)
Definition resolved_as_default (slot : Slot) (directory : Path)
  (state_dict : StateDict) (params : Params) : Prop :=
  match slot with
  | ProcessorSlot =>
      same_request ProcessorBase directory "processor" post_type ∅
        (_load_processor post_type directory state_dict)
        (_build_processor post_type)
  | PosterSlot =>
      same_request PosterBase directory "poster" (poster_type params)
        (default ∅ (params_posters_params params !! poster_type params))
        (_load_poster directory state_dict params) (_build_poster params)
      /\ dict_get state_dict "posters_params"
           (VParams (params_posters_params params))
         = VParams (params_posters_params params)
  | ScorerSlot =>
      same_request ScorerBase directory "scorer" (scorer_type params)
        (default ∅ (params_scorers_params params !! scorer_type params))
        (_load_scorer directory state_dict params) (_build_scorer params)
      /\ dict_get state_dict "scorers_params"
           (VParams (params_scorers_params params))
         = VParams (params_scorers_params params)
  | ScoreModifierSlot =>
      same_optional_request ScoreModifierBase directory "score_modifier"
        (score_modifier_type params) (params_score_modifiers_params params)
        (_load_score_modifier directory state_dict params)
        (_build_score_modifier params)
      /\ dict_get state_dict "score_modifiers_params"
           (VParams (params_score_modifiers_params params))
         = VParams (params_score_modifiers_params params)
  | ScraperSlot =>
      same_request ScraperBase directory "scraper" (scraper_type params)
        (default ∅ (params_scrapers_params params !! scraper_type params))
        (_load_scraper directory state_dict params) (_build_scraper params)
      /\ dict_get state_dict "scrapers_params"
           (VParams (params_scrapers_params params))
         = VParams (params_scrapers_params params)
  | RestrictionSlot =>
      same_optional_request RestrictionBase directory "restriction"
        (restriction_type params) (params_restrictions_params params)
        (_load_restriction directory state_dict params)
        (_build_restriction params)
      /\ dict_get state_dict "restrictions_params"
           (VParams (params_restrictions_params params))
         = VParams (params_restrictions_params params)
  end.

End LifecycleVocabulary.

(** ** A small face to run the model on *)

Module Sample.

(** The outside world is the list of things done to it, oldest first; a
    submission is its native id and its text. *)
#[export] Instance externals : Externals := {|
  W := list string;
  Any := Z;
  Content := string;
  Data := string;
  Score := Z;
  Datetime := Z;
  Subreddit := string;
  Submission := string * string;
  submission_id := fst;
  reddit_subreddit := fun _ name => ret name;
  reddit_submission := fun _ native => ret (native, "fetched");
  reddit_close := fun _ w => (Ok tt, w ++ ["client closed"]);
  post_from_submission :=
    fun s =>
      if String.eqb (snd s) ""
      then raise (Exception "ValueError" "submission without text")
      else ret (snd s);
|}.

Definition submission_of (id body : string) : Submission := (id, body).

(** A processor with a cleanup that may be called any number of times. *)
Definition text_processor : Processor :=
  mkStrategy "textOnly" None
    (Some (fun w => (Ok tt, w ++ ["processor cleaned"])))
    (mkProcessorOps (fun content => ret content) (fun data => ret data)).

(** The remote service numbers the new item ["k9"]. *)
Definition submit (subreddit : Subreddit) (data : Data) : Eff NativeItem :=
  fun w =>
    (Ok (mkNativeItem "k9" (Some "https://redd.it/k9")), w ++ ["submitted"]).

Definition basic_poster : Poster :=
  mkStrategy "basic" None None (remote_poster submit).

(** No score for a submission whose text is ["deleted"]. *)
Definition length_scorer : Scorer :=
  mkStrategy "relativeScore" None None
    (mkScorerOps
       (fun s =>
          if String.eqb (snd s) "deleted"
          then raise (Exception "RuntimeError" "no score")
          else ret (Z.of_nat (String.length (snd s))))).

Definition doubling_modifier : ScoreModifier :=
  mkStrategy "double" None None
    (mkScoreModifierOps (fun _ score => ret (2 * score))).

Definition frontpage : list Submission :=
  [submission_of "a1" "first"; submission_of "a2" "";
   submission_of "a3" "third"].

Definition frontpage_scraper : Scraper :=
  mkStrategy "frontpage" None None (mkScraperOps (fun _ _ _ => frontpage)).

(** Only non-empty posts are allowed. *)
Definition non_empty_restriction : Restriction :=
  mkStrategy "nonEmpty" None None
    (mkRestrictionOps (fun data => ret (negb (String.eqb data "")))).

(** A scorer that owns a resource: its cleanup releases it, and raises
    when the resource was released before. *)
Definition pooled_scorer : Scorer :=
  mkStrategy "pooled" None
    (Some (fun w =>
             if existsb (String.eqb "pool released") w
             then (Raise (Exception "RuntimeError" "pool already released"),
                   w)
             else (Ok tt, w ++ ["pool released"])))
    (mkScorerOps (fun _ => ret 1)).

(** The triples of the first and of the third submission. *)
Definition triple_a1 : Triple := (Base36.mkUUID 361, "first", 5).
Definition triple_a3 : Triple := (Base36.mkUUID 363, "third", 5).

(** A front page whose second submission has lost its score. *)
Definition hot : list Submission :=
  [submission_of "a1" "first"; submission_of "a2" "deleted";
   submission_of "a3" "third"].

Definition hot_scraper : Scraper :=
  mkStrategy "hot" None None (mkScraperOps (fun _ _ _ => hot)).

Definition reddit : Reddit := mkReddit "id" "secret" "token" "agent" 3600.

Definition state : State :=
  mkState reddit "pics" text_processor
    basic_poster (VParams ∅)
    length_scorer (VParams {["relativeScore" := {["weight" := 2]}]})
    None (VParams ∅)
    frontpage_scraper (VParams ∅)
    (Some non_empty_restriction) (VParams ∅).

(** The same face with the scorer that owns a resource. *)
Definition pooled_state : State :=
  mkState reddit "pics" text_processor
    basic_poster (VParams ∅)
    pooled_scorer (VParams ∅)
    None (VParams ∅)
    frontpage_scraper (VParams ∅)
    None (VParams ∅).

(** The same face scraping [hot]. *)
Definition hot_state : State :=
  mkState reddit "pics" text_processor
    basic_poster (VParams ∅)
    length_scorer (VParams ∅)
    None (VParams ∅)
    hot_scraper (VParams ∅)
    None (VParams ∅).

(** The state of a face operation that starts with nothing done and no
    lock held. *)
Definition idle : Sigma := mkSigma [] 0 0 [].

(** A configuration that selects other strategies than [state] runs. *)
Definition params : Params :=
  mkParams "id" "secret" "token" "agent" "pics" 3600
    "basic" ∅
    "pooled" ∅
    (Some "double") ∅
    "frontpage" ∅
    None ∅.

(** The identifier and the score of a sample submission. *)
Definition sample_id (s : Submission) : Base36.UUID :=
  match Base36.identifier_of (fst s) with
  | Ok id => id
  | Raise _ => Base36.mkUUID 0
  end.

Definition sample_score (s : Submission) : Score :=
  Z.of_nat (String.length (snd s)).

(** An SDK whose classes are the strategies above: building looks the
    category up, loading builds what the category names. *)
Definition find_category {Ops} (registry : list (Strategy Ops))
  (wanted : Value) : Eff (Strategy Ops) :=
  match wanted with
  | VStr c =>
      match find (fun i => String.eqb (category i) c) registry with
      | Some i => ret i
      | None => raise (ValueError "Categorizable for category not found.")
      end
  | _ => raise (ValueError "Category not given.")
  end.

#[export] Instance sdk : SDK := {|
  Base := fun Ops => list (Strategy Ops);
  ProcessorBase := [text_processor];
  PosterBase := [basic_poster];
  ScorerBase := [length_scorer; pooled_scorer];
  ScoreModifierBase := [doubling_modifier];
  ScraperBase := [frontpage_scraper; hot_scraper];
  RestrictionBase := [non_empty_restriction];
  build_generic := fun Ops registry wanted _ =>
    find_category registry wanted;
  load_generic := fun Ops T inj _ registry wanted _ _ =>
    i <- find_category registry wanted ;; ret (inj i);
  save_state_dict := fun _ _ => ret tt;
  load_state_dict := fun _ => ret (_create_state_dict state);
|}.

End Sample.

(** ** A face that keeps its manifest on a disk *)

Module Archive.

(** What the disk keeps of a value of the state dictionary. *)
Inductive Stored : Type :=
| SNone
| SStr (s : string)
| SParams (m : gmap string (gmap string Z)).

(** The outside world: a journal of what was done, and the manifests
    written so far, newest first, each with its directory. *)
Record Disk : Type := mkDisk {
  journal : list string;
  manifests : list (Path * gmap string Stored);
}.

#[export] Instance externals : Externals := {|
  W := Disk;
  Any := Z;
  Content := string;
  Data := string;
  Score := Z;
  Datetime := Z;
  Subreddit := string;
  Submission := string * string;
  submission_id := fst;
  reddit_subreddit := fun _ name => ret name;
  reddit_submission := fun _ native => ret (native, "fetched");
  reddit_close := fun _ => ret tt;
  post_from_submission := fun s => ret (snd s);
|}.

Definition store (v : Value) : Stored :=
  match v with
  | VNone => SNone
  | VStr s => SStr s
  | VParams m => SParams m
  end.

Definition restore (v : Stored) : Value :=
  match v with
  | SNone => VNone
  | SStr s => VStr s
  | SParams m => VParams m
  end.

Definition write_manifest (state_dict : StateDict) (directory : Path)
  : Eff unit :=
  fun d =>
    (Ok tt,
     mkDisk (journal d ++ ["manifest written"])
       ((directory, store <$> state_dict) :: manifests d)).

(** A directory without manifest reads as the empty dictionary. *)
Definition read_manifest (directory : Path) : Eff StateDict :=
  fun d =>
    match find (fun entry => bool_decide (entry.1 = directory))
            (manifests d) with
    | Some entry => (Ok (restore <$> entry.2), d)
    | None => (Ok ∅, d)
    end.

Definition plain_processor : Processor :=
  mkStrategy "textOnly" None None
    (mkProcessorOps (fun content => ret content) (fun data => ret data)).

(** The poster keeps a ledger, which it saves. *)
Definition ledger_poster : Poster :=
  mkStrategy "basic"
    (Some (fun directory d =>
             (Ok tt, mkDisk (journal d ++ ["ledger saved"]) (manifests d))))
    None
    (mkPosterOps
       (fun _ _ => ret (mkPostRecord (Base36.mkUUID 0) None))).

Definition length_scorer : Scorer :=
  mkStrategy "relativeScore" None None
    (mkScorerOps (fun s => ret (Z.of_nat (String.length (snd s))))).

Definition constant_scorer : Scorer :=
  mkStrategy "constant" None None (mkScorerOps (fun _ => ret 1)).

Definition doubling_modifier : ScoreModifier :=
  mkStrategy "double" None None
    (mkScoreModifierOps (fun _ score => ret (2 * score))).

Definition frontpage_scraper : Scraper :=
  mkStrategy "frontpage" None None (mkScraperOps (fun _ _ _ => [])).

Definition non_empty_restriction : Restriction :=
  mkStrategy "nonEmpty" None None
    (mkRestrictionOps (fun data => ret (negb (String.eqb data "")))).

Definition find_category {Ops} (registry : list (Strategy Ops))
  (wanted : Value) : Eff (Strategy Ops) :=
  match wanted with
  | VStr c =>
      match find (fun i => String.eqb (category i) c) registry with
      | Some i => ret i
      | None => raise (ValueError "Categorizable for category not found.")
      end
  | _ => raise (ValueError "Category not given.")
  end.

(** An SDK that keeps the manifest on the disk and whose loader builds
    what the category names. *)
#[export] Instance sdk : SDK := {|
  Base := fun Ops => list (Strategy Ops);
  ProcessorBase := [plain_processor];
  PosterBase := [ledger_poster];
  ScorerBase := [length_scorer; constant_scorer];
  ScoreModifierBase := [doubling_modifier];
  ScraperBase := [frontpage_scraper];
  RestrictionBase := [non_empty_restriction];
  build_generic := fun Ops registry wanted _ =>
    find_category registry wanted;
  load_generic := fun Ops T inj _ registry wanted _ _ =>
    i <- find_category registry wanted ;; ret (inj i);
  save_state_dict := write_manifest;
  load_state_dict := read_manifest;
|}.


Definition reddit : Reddit := mkReddit "id" "secret" "token" "agent" 3600.





End Archive.

(** * More of the face *)

(** ** The parameters of the face ([PosterParameter] ... ) *)

Section Parameters.
Context {E : Externals}.

(** [{**state.posters_params.get(category, {})}]: the entries kept for
    the category, none when the category has no entry. *)
Definition PosterParameter_get_params (state : State) (category : string)
  : result Kwargs :=
  get_kwargs (posters_params state) (VStr category).

Definition ScorerParameter_get_params (state : State) (category : string)
  : result Kwargs :=
  get_kwargs (scorers_params state) (VStr category).

Definition ScoreModifierParameter_get_params (state : State)
  (category : string) : result Kwargs :=
  get_kwargs (score_modifiers_params state) (VStr category).

Definition ScraperParameter_get_params (state : State) (category : string)
  : result Kwargs :=
  get_kwargs (scrapers_params state) (VStr category).

Definition RestrictionParameter_get_params (state : State)
  (category : string) : result Kwargs :=
  get_kwargs (restrictions_params state) (VStr category).

End Parameters.

(** ** More vocabulary *)

Section MoreVocabulary.
Context {E : Externals}.

(** A rule that a stream keeps: every state in which it ends satisfies
    [ended], every state in which it is suspended satisfies [suspended],
    and from any state that satisfies [suspended] (the world may have
    changed while the consumer held the item) closing it leads to a state
    that satisfies [ended] and resuming it gives a stream that keeps the
    rule. *)
Fixpoint stream_keeps {T} (ended suspended : Sigma -> Prop) (g : Gen T)
  : Prop :=
  match g with
  | Returned σ => ended σ
  | Raised _ σ => ended σ
  | Yielded _ σ resume close =>
      suspended σ
      /\ forall σ', suspended σ' ->
                    ended (close σ') /\ stream_keeps ended suspended (resume σ')
  end.

Definition is_suspended {T} (g : Gen T) : bool :=
  match g with
  | Yielded _ _ _ _ => true
  | _ => false
  end.

(** The identifier of a triple is that of the submission. *)
Definition identified_by (s : Submission) (t : Triple) : Prop :=
  Base36.identifier_of (submission_id s) = Ok t.1.1.

(** The saves of the slot instances that are [Savable], each into its
    own sub-directory, in the order of the slots. *)
Definition save_of {Ops} (x : Strategy Ops) (directory : Path)
  (name : string) : list (Eff unit) :=
  match savable x with
  | Some save => [save (path_div directory name)]
  | None => []
  end.

Definition save_of_optional {Ops} (x : option (Strategy Ops))
  (directory : Path) (name : string) : list (Eff unit) :=
  match x with
  | Some i => save_of i directory name
  | None => []
  end.

Definition slot_saves (st : State) (directory : Path) : list (Eff unit) :=
  save_of (processor st) directory "processor"
  ++ save_of (poster st) directory "poster"
  ++ save_of (scorer st) directory "scorer"
  ++ save_of_optional (score_modifier st) directory "score_modifier"
  ++ save_of (scraper st) directory "scraper"
  ++ save_of_optional (restriction st) directory "restriction".

(** The three ways in which a collaborator of [post] fails with [e]: the
    processor, the restriction after the processor, the poster after
    both. *)
Definition post_collaborator_fails (st : State) (content : Content)
  (w : W) (e : exn) : Prop :=
  (exists w1, to_internal (ops (processor st)) content w = (Raise e, w1))
  \/ (exists data w1 r w2,
        to_internal (ops (processor st)) content w = (Ok data, w1)
        /\ restriction st = Some r
        /\ check (ops r) data w1 = (Raise e, w2))
  \/ (exists data w1 w2 w3,
        to_internal (ops (processor st)) content w = (Ok data, w1)
        /\ match restriction st with
           | Some r => check (ops r) data w1 = (Ok true, w2)
           | None => w2 = w1
           end
        /\ poster_post (ops (poster st)) (subreddit st) data w2
           = (Raise e, w3)).

(** [post] stops at a collaborator that raises [e]: the processor, the
    restriction after the processor, or the poster after both.  [w'] is
    the world that collaborator leaves and [cs] the calls made up to
    it. *)
Definition post_stops (st : State) (content : Content) (w : W) (e : exn)
  (w' : W) (cs : list Call) : Prop :=
  (to_internal (ops (processor st)) content w = (Raise e, w')
   /\ cs = [ProcessorToInternal])
  \/ (exists data w1 r,
        to_internal (ops (processor st)) content w = (Ok data, w1)
        /\ restriction st = Some r
        /\ check (ops r) data w1 = (Raise e, w')
        /\ cs = [ProcessorToInternal; RestrictionCheck])
  \/ (exists data w1 w2,
        to_internal (ops (processor st)) content w = (Ok data, w1)
        /\ match restriction st with
           | Some r => check (ops r) data w1 = (Ok true, w2)
           | None => w2 = w1
           end
        /\ poster_post (ops (poster st)) (subreddit st) data w2
           = (Raise e, w')
        /\ cs = [ProcessorToInternal]
                ++ match restriction st with
                   | Some _ => [RestrictionCheck]
                   | None => []
                   end
                ++ [PosterPost]).

(** The course of a [score] for the native id [n] from the world [w]: its
    outcome, the world it leaves and the calls it makes.  It stops at the
    client or at the scorer when they raise; otherwise the score is the
    scorer's when no modifier is set, and whatever the modifier makes of
    the scorer's score when one is. *)
Inductive score_path (st : State) (n : string) (w : W)
  : result Score -> W -> list Call -> Prop :=
| score_stops_at_client e w1 :
    reddit_submission (client st) n w = (Raise e, w1) ->
    score_path st n w (Raise e) w1 [ClientSubmission]
| score_stops_at_scorer s w1 e w2 :
    reddit_submission (client st) n w = (Ok s, w1) ->
    scorer_score (ops (scorer st)) s w1 = (Raise e, w2) ->
    score_path st n w (Raise e) w2 [ClientSubmission; ScorerScore]
| score_of_scorer s w1 raw w2 :
    reddit_submission (client st) n w = (Ok s, w1) ->
    scorer_score (ops (scorer st)) s w1 = (Ok raw, w2) ->
    score_modifier st = None ->
    score_path st n w (Ok raw) w2 [ClientSubmission; ScorerScore]
| score_of_modifier s w1 raw w2 m r w3 :
    reddit_submission (client st) n w = (Ok s, w1) ->
    scorer_score (ops (scorer st)) s w1 = (Ok raw, w2) ->
    score_modifier st = Some m ->
    modify (ops m) s raw w2 = (r, w3) ->
    score_path st n w r w3
      [ClientSubmission; ScorerScore; ScoreModifierModify].

(** A collaborator operation that leaves the world as it finds it. *)
Definition read_only {A} (f : Eff A) : Prop := forall w, (f w).2 = w.

(** The four collaborators of an export only read. *)
Definition export_reads_only (st : State) : Prop :=
  (forall s, read_only (scorer_score (ops (scorer st)) s))
  /\ (forall m, score_modifier st = Some m ->
                forall s v, read_only (modify (ops m) s v))
  /\ (forall s, read_only (post_from_submission s))
  /\ (forall d, read_only (to_external (ops (processor st)) d)).

End MoreVocabulary.

Section MoreLifecycleVocabulary.
Context {E : Externals} {K : SDK}.

(** The SDK builder returns an instance of the category it is asked for. *)
Definition builder_honours_category : Prop :=
  forall (Ops : Type) (base : Base Ops) (c : string) (kwargs : Kwargs)
         (w w' : W) (i : Strategy Ops),
    build_generic base (VStr c) kwargs w = (Ok i, w') -> category i = c.

(** The key of the state dictionary that names the category of a slot. *)
Definition type_key (slot : Slot) : string :=
  match slot with
  | ProcessorSlot => "processor_type"
  | PosterSlot => "poster_type"
  | ScorerSlot => "scorer_type"
  | ScoreModifierSlot => "score_modifier_type"
  | ScraperSlot => "scraper_type"
  | RestrictionSlot => "restriction_type"
  end.

(** The parameter mapping a slot reads when it is loaded: that of the
    state dictionary when it has one, that of the configuration
    otherwise; the processor has none. *)
Definition mapping_of (slot : Slot) (state_dict : StateDict)
  (params : Params) : Value :=
  match slot with
  | ProcessorSlot => VParams ∅
  | PosterSlot =>
      dict_get state_dict "posters_params"
        (VParams (params_posters_params params))
  | ScorerSlot =>
      dict_get state_dict "scorers_params"
        (VParams (params_scorers_params params))
  | ScoreModifierSlot =>
      dict_get state_dict "score_modifiers_params"
        (VParams (params_score_modifiers_params params))
  | ScraperSlot =>
      dict_get state_dict "scrapers_params"
        (VParams (params_scrapers_params params))
  | RestrictionSlot =>
      dict_get state_dict "restrictions_params"
        (VParams (params_restrictions_params params))
  end.

(** The entries of a mapping for a category read from the state
    dictionary; [None] is never a key. *)
Definition kwargs_for (m : ParamsMap) (c : option string) : Kwargs :=
  match c with
  | Some c => default ∅ (m !! c)
  | None => ∅
  end.

(** A mandatory slot is loaded with the category [c] and the entries of
    [m] for it; an optional slot likewise, or is left empty when [c] is
    [None].  The configuration only provides the fallback. *)
Definition loaded_as (post_type : string) (slot : Slot) (directory : Path)
  (state_dict : StateDict) (params : Params)
  (c : option string) (m : ParamsMap) : Prop :=
  match slot with
  | ProcessorSlot =>
      _load_processor post_type directory state_dict
      = load_generic id (path_div directory "processor") ProcessorBase
          (value_of_optional c) ∅ (_build_processor post_type)
  | PosterSlot =>
      _load_poster directory state_dict params
      = load_generic id (path_div directory "poster") PosterBase
          (value_of_optional c) (kwargs_for m c) (_build_poster params)
  | ScorerSlot =>
      _load_scorer directory state_dict params
      = load_generic id (path_div directory "scorer") ScorerBase
          (value_of_optional c) (kwargs_for m c) (_build_scorer params)
  | ScoreModifierSlot =>
      _load_score_modifier directory state_dict params
      = match c with
        | None => ret None
        | Some _ =>
            load_generic Some (path_div directory "score_modifier")
              ScoreModifierBase (value_of_optional c) (kwargs_for m c)
              (_build_score_modifier params)
        end
  | ScraperSlot =>
      _load_scraper directory state_dict params
      = load_generic id (path_div directory "scraper") ScraperBase
          (value_of_optional c) (kwargs_for m c) (_build_scraper params)
  | RestrictionSlot =>
      _load_restriction directory state_dict params
      = match c with
        | None => ret None
        | Some _ =>
            load_generic Some (path_div directory "restriction")
              RestrictionBase (value_of_optional c) (kwargs_for m c)
              (_build_restriction params)
        end
  end.

End MoreLifecycleVocabulary.

(** ** More sample strategies *)

Module MoreSample.
Import Sample.

(** A processor that has no internal form for an empty post. *)
Definition strict_processor : Processor :=
  mkStrategy "textOnly" None None
    (mkProcessorOps
       (fun content =>
          if String.eqb content ""
          then raise (Exception "ValueError" "unsupported content")
          else ret content)
       (fun data => ret data)).

Definition strict_state : State :=
  mkState reddit "pics" strict_processor
    basic_poster (VParams ∅)
    length_scorer (VParams ∅)
    (Some doubling_modifier) (VParams ∅)
    frontpage_scraper (VParams ∅)
    (Some non_empty_restriction) (VParams ∅).

(** Strategies that keep state on disk: the processor and the scorer
    save it, the poster finds the disk full. *)
Definition saving_processor : Processor :=
  mkStrategy "textOnly"
    (Some (fun directory w => (Ok tt, w ++ ["processor saved"])))
    None
    (mkProcessorOps (fun content => ret content) (fun data => ret data)).

Definition failing_poster : Poster :=
  mkStrategy "basic"
    (Some (fun directory w =>
             (Raise (Exception "OSError" "No space left on device"),
              w ++ ["poster save tried"])))
    None (remote_poster submit).

Definition saving_scorer : Scorer :=
  mkStrategy "relativeScore"
    (Some (fun directory w => (Ok tt, w ++ ["scorer saved"])))
    None (mkScorerOps (fun _ => ret 1)).

Definition saving_state : State :=
  mkState reddit "pics" saving_processor
    failing_poster (VParams ∅)
    saving_scorer (VParams ∅)
    None (VParams ∅)
    frontpage_scraper (VParams ∅)
    None (VParams ∅).

(** A translation that is cancelled on the third submission. *)
Definition cancelled_processor : Processor :=
  mkStrategy "textOnly" None None
    (mkProcessorOps
       (fun content => ret content)
       (fun data =>
          if String.eqb data "third"
          then raise (BaseException "CancelledError")
          else ret data)).

Definition cancelled_state : State :=
  mkState reddit "pics" cancelled_processor
    basic_poster (VParams ∅)
    length_scorer (VParams ∅)
    None (VParams ∅)
    frontpage_scraper (VParams ∅)
    None (VParams ∅).

(** The state that the sample configuration builds. *)
Definition configured_state : State :=
  mkState reddit "pics" text_processor
    basic_poster (VParams ∅)
    pooled_scorer (VParams ∅)
    (Some doubling_modifier) (VParams ∅)
    frontpage_scraper (VParams ∅)
    None (VParams ∅).

(** A face whose processor and scorer keep state on disk. *)
Definition archived_state : State :=
  mkState reddit "pics" saving_processor
    basic_poster (VParams ∅)
    saving_scorer (VParams ∅)
    None (VParams ∅)
    frontpage_scraper (VParams ∅)
    None (VParams ∅).

(** An SDK that reads a manifest whose parameters of the scorers were
    lost. *)
Definition damaged_sdk : SDK := {|
  Base := fun Ops => list (Strategy Ops);
  ProcessorBase := [text_processor];
  PosterBase := [basic_poster];
  ScorerBase := [length_scorer; pooled_scorer];
  ScoreModifierBase := [doubling_modifier];
  ScraperBase := [frontpage_scraper; hot_scraper];
  RestrictionBase := [non_empty_restriction];
  build_generic := fun Ops registry wanted _ =>
    find_category registry wanted;
  load_generic := fun Ops T inj _ registry wanted _ _ =>
    i <- find_category registry wanted ;; ret (inj i);
  save_state_dict := fun _ _ => ret tt;
  load_state_dict := fun _ =>
    ret (<["scorers_params" := VNone]> (_create_state_dict state));
|}.

(** A modifier that has no score for a banned submission. *)
Definition moderating_modifier : ScoreModifier :=
  mkStrategy "moderated" None None
    (mkScoreModifierOps
       (fun s score =>
          if String.eqb (snd s) "banned"
          then raise (Exception "LookupError" "banned submission")
          else ret score)).

Definition moderated : list Submission :=
  [submission_of "a1" "first"; submission_of "a2" "banned";
   submission_of "a3" "third"].

Definition moderated_scraper : Scraper :=
  mkStrategy "moderated" None None (mkScraperOps (fun _ _ _ => moderated)).

Definition moderated_state : State :=
  mkState reddit "pics" text_processor
    basic_poster (VParams ∅)
    length_scorer (VParams ∅)
    (Some moderating_modifier) (VParams ∅)
    moderated_scraper (VParams ∅)
    None (VParams ∅).

(** A poster that does not reach the remote service. *)
Definition offline_poster : Poster :=
  mkStrategy "basic" None None
    (mkPosterOps
       (fun _ _ w =>
          (Raise (Exception "ConnectionError" "service unreachable"),
           w ++ ["post tried"]))).

Definition offline_state : State :=
  mkState reddit "pics" text_processor
    offline_poster (VParams ∅)
    length_scorer (VParams ∅)
    None (VParams ∅)
    frontpage_scraper (VParams ∅)
    (Some non_empty_restriction) (VParams ∅).

(** The face with the pooled scorer after a first cleanup, in which the
    pool was released. *)
Definition released : Sigma := (cleanup pooled_state idle).2.

End MoreSample.

(** * Properties *)

(** ** The identifier conversion *)

Section Base36Facts.
Import Base36.

Lemma native_digit_checked (c : ascii) :
  is_native_digit c = true -> native_digit_check c = true.
Proof.
  destruct c as [[] [] [] [] [] [] [] []]; vm_compute; congruence.
Qed.

Lemma native_digit_facts (c : ascii) :
  is_native_digit c = true ->
  digit_value c = Some (dv c) /\ 0 <= dv c < 36
  /\ lower_char (digit_char (dv c)) = c
  /\ is_space c = false
  /\ Ascii.eqb c "_"%char = false
  /\ Ascii.eqb c "-"%char = false
  /\ Ascii.eqb c "+"%char = false
  /\ (dv c = 0 <-> c = "0"%char).
Proof.
  intros H. apply native_digit_checked in H.
  unfold native_digit_check, dv in *.
  destruct (digit_value c) as [d|]; [|discriminate]. simpl.
  repeat (apply andb_prop in H; destruct H as [H ?]).
  repeat match goal with
         | H : negb _ = true |- _ => apply negb_true_iff in H
         end.
  apply Ascii.eqb_eq in H5.
  repeat split; try done; try lia.
  - intros Hd. apply Ascii.eqb_eq. apply Bool.eqb_prop in H0.
    rewrite <- H0. lia.
  - intros Hc. apply Ascii.eqb_eq in Hc. apply Bool.eqb_prop in H0.
    rewrite Hc in H0. lia.
Qed.

Lemma digits36_native (cs : list ascii) :
  forallb is_native_digit cs = true ->
  forall acc prev,
    (cs <> [] \/ prev = true) ->
    digits36 acc prev cs = Some (horner acc cs).
Proof.
  induction cs as [|c cs IH]; intros Hall acc prev Hne.
  - destruct Hne as [?| ->]; done.
  - simpl in Hall. apply andb_prop in Hall as [Hc Hall].
    destruct (native_digit_facts c Hc) as (Hv & _ & _ & _ & Hu & _).
    simpl. rewrite Hu, Hv. apply IH; auto.
Qed.

Lemma horner_app (acc : Z) (cs : list ascii) (c : ascii) :
  horner acc (cs ++ [c]) = horner acc cs * 36 + dv c.
Proof. unfold horner. by rewrite fold_left_app. Qed.

Lemma horner_nonneg (cs : list ascii) :
  forallb is_native_digit cs = true ->
  forall acc, 0 <= acc -> 0 <= horner acc cs.
Proof.
  induction cs as [|c cs IH]; intros Hall acc Hacc; [done|].
  simpl in Hall. apply andb_prop in Hall as [Hc Hall].
  destruct (native_digit_facts c Hc) as (_ & Hb & _).
  simpl. apply IH; [done|lia].
Qed.

Lemma horner_lower_bound (cs : list ascii) :
  forallb is_native_digit cs = true ->
  no_leading_zero cs -> cs <> [] ->
  36 ^ (Z.of_nat (length cs) - 1) <= horner 0 cs.
Proof.
  induction cs as [|c cs IH] using rev_ind; intros Hall Hlz Hne; [done|].
  rewrite forallb_app in Hall. apply andb_prop in Hall as [Hall Hc].
  simpl in Hc. rewrite andb_true_r in Hc.
  destruct (native_digit_facts c Hc) as (_ & Hb & _ & _ & _ & _ & _ & Hz).
  rewrite horner_app, length_app. simpl.
  destruct cs as [|c0 cs].
  - simpl in *. assert (dv c <> 0) by (intros ?; apply Hlz, Hz; done).
    change (36 ^ (1 - 1)) with 1. unfold horner. simpl. lia.
  - assert (H1 : 36 ^ (Z.of_nat (length (c0 :: cs)) - 1)
                 <= horner 0 (c0 :: cs)) by (apply IH; done).
    replace (Z.of_nat (length (c0 :: cs) + 1) - 1)
      with (Z.succ (Z.of_nat (length (c0 :: cs)) - 1)) by lia.
    rewrite Z.pow_succ_r by (simpl; lia). lia.
Qed.

Lemma base_repr_loop_horner (cs : list ascii) :
  forallb is_native_digit cs = true ->
  no_leading_zero cs ->
  forall fuel res,
    (length cs <= fuel)%nat ->
    base_repr_loop fuel (horner 0 cs) 36 res
    = res ++ rev (map (fun c => digit_char (dv c)) cs).
Proof.
  induction cs as [|c cs IH] using rev_ind; intros Hall Hlz fuel res Hfuel.
  - simpl. rewrite app_nil_r. by destruct fuel.
  - rewrite forallb_app in Hall. apply andb_prop in Hall as [Hall Hc].
    simpl in Hc. rewrite andb_true_r in Hc.
    destruct (native_digit_facts c Hc) as (_ & Hb & _ & _ & _ & _ & _ & Hz).
    rewrite length_app in Hfuel. simpl in Hfuel.
    destruct fuel as [|fuel]; [lia|].
    rewrite horner_app, map_app, rev_app_distr. simpl.
    assert (Hh : 0 <= horner 0 cs) by (by apply horner_nonneg).
    assert (Hlz' : no_leading_zero cs) by (by destruct cs).
    assert (Hnz : horner 0 cs * 36 + dv c <> 0).
    { destruct cs as [|c0 cs].
      - unfold horner. simpl in *. intros ?. apply Hlz, Hz. lia.
      - pose proof (horner_lower_bound (c0 :: cs) Hall Hlz' ltac:(done)).
        assert (0 < 36 ^ (Z.of_nat (length (c0 :: cs)) - 1))
          by (apply Z.pow_pos_nonneg; simpl; lia).
        lia. }
    apply Z.eqb_neq in Hnz. rewrite Hnz.
    replace ((horner 0 cs * 36 + dv c) / 36) with (horner 0 cs)
      by (apply Z.div_unique with (r := dv c); lia).
    replace ((horner 0 cs * 36 + dv c) mod 36) with (dv c)
      by (apply Z.mod_unique with (q := horner 0 cs); lia).
    rewrite IH by (done || lia). by rewrite <- app_assoc.
Qed.

Lemma lower_digits (cs : list ascii) :
  forallb is_native_digit cs = true ->
  map lower_char (map (fun c => digit_char (dv c)) cs) = cs.
Proof.
  induction cs as [|c cs IH]; intros Hall; [done|].
  simpl in Hall. apply andb_prop in Hall as [Hc Hall].
  destruct (native_digit_facts c Hc) as (_ & _ & Hl & _).
  simpl. by rewrite Hl, IH.
Qed.

Lemma strip_native (cs : list ascii) :
  forallb is_native_digit cs = true -> strip cs = cs.
Proof.
  intros Hall. unfold strip.
  assert (Hl : forall l, forallb is_native_digit l = true -> lstrip l = l).
  { intros [|c l] H; [done|]. simpl in H. apply andb_prop in H as [Hc _].
    destruct (native_digit_facts c Hc) as (_ & _ & _ & Hs & _).
    simpl. by rewrite Hs. }
  rewrite (Hl cs Hall), Hl, rev_involutive; [done|].
  rewrite forallb_forall in *. intros x Hx. apply Hall. by apply in_rev.
Qed.

Lemma int_base36_native (cs : list ascii) :
  cs <> [] -> forallb is_native_digit cs = true ->
  int_base36 (string_of_list_ascii cs) = Ok (horner 0 cs).
Proof.
  intros Hne Hall. unfold int_base36.
  rewrite list_ascii_of_string_of_list_ascii, strip_native by done.
  destruct cs as [|c cs]; [done|].
  pose proof Hall as Hall'. simpl in Hall'.
  apply andb_prop in Hall' as [Hc _].
  destruct (native_digit_facts c Hc) as (_ & _ & _ & _ & _ & Hm & Hp & _).
  rewrite Hm, Hp, digits36_native by auto.
  f_equal. lia.
Qed.

Lemma canonical_inv (cs : list ascii) :
  canonical cs = true ->
  cs <> [] /\ forallb is_native_digit cs = true
  /\ (cs = ["0"%char] \/ no_leading_zero cs).
Proof.
  destruct cs as [|c rest]; [done|]. unfold canonical.
  intros H. apply andb_prop in H as [Hall Hz].
  repeat split; [done|done|].
  apply orb_prop in Hz as [Hz|Hz].
  - right. simpl. intros ->. done.
  - destruct rest; [|done].
    destruct (Ascii.eqb_spec c "0"%char) as [->|Hc]; [by left|by right].
Qed.

Lemma base_repr_fuel (cs : list ascii) :
  forallb is_native_digit cs = true ->
  no_leading_zero cs -> cs <> [] ->
  (length cs <= S (Z.to_nat (Z.log2 (horner 0 cs))))%nat.
Proof.
  intros Hall Hlz Hne.
  pose proof (horner_lower_bound cs Hall Hlz Hne) as Hb.
  assert (Hlen : (0 < length cs)%nat) by (destruct cs; [done|simpl; lia]).
  set (k := Z.of_nat (length cs) - 1) in *.
  assert (Hk : 0 <= k) by lia.
  assert (H2 : 2 ^ k <= 36 ^ k) by (apply Z.pow_le_mono_l; lia).
  assert (Hlog : k <= Z.log2 (horner 0 cs)).
  { rewrite <- (Z.log2_pow2 k Hk). apply Z.log2_le_mono. lia. }
  lia.
Qed.

(** The native id of the identifier of a canonical numeral is the
    numeral. *)
Lemma native_id_of_canonical (cs : list ascii) :
  canonical cs = true ->
  native_id_of (mkUUID (horner 0 cs)) = Ok (string_of_list_ascii cs).
Proof.
  intros Hcan. destruct (canonical_inv _ Hcan) as (Hne & Hall & Hshape).
  pose proof (horner_nonneg cs Hall 0 ltac:(lia)) as Hpos.
  unfold native_id_of, base_repr. simpl uuid_int.
  change (36 <? 36) with false. change (36 <? 2) with false. cbv iota.
  rewrite Z.abs_eq by done.
  destruct (horner 0 cs <? 0) eqn:Hneg; [lia|].
  destruct Hshape as [Hzero|Hlz].
  - rewrite Hzero. reflexivity.
  - rewrite base_repr_loop_horner by (done || by apply base_repr_fuel).
    simpl app.
    destruct (rev (map (fun c => digit_char (dv c)) cs)) as [|d ds] eqn:Hr.
    { apply (f_equal (@length ascii)) in Hr.
      rewrite length_rev, length_map in Hr. by destruct cs. }
    rewrite <- Hr, rev_involutive. unfold lower.
    by rewrite list_ascii_of_string_of_list_ascii, lower_digits.
Qed.

Lemma identifier_of_canonical (cs : list ascii) :
  canonical cs = true -> horner 0 cs < 2 ^ 128 ->
  identifier_of (string_of_list_ascii cs) = Ok (mkUUID (horner 0 cs)).
Proof.
  intros Hcan Hfit. destruct (canonical_inv _ Hcan) as (Hne & Hall & _).
  pose proof (horner_nonneg cs Hall 0 ltac:(lia)) as Hpos.
  unfold identifier_of, UUID_of_int. rewrite int_base36_native by done.
  destruct (0 <=? horner 0 cs) eqn:H0; [|lia].
  destruct (horner 0 cs <? 2 ^ 128) eqn:H1; [done|lia].
Qed.

Lemma valid_native_id_inv (n : string) :
  valid_native_id n = true ->
  exists cs,
    n = string_of_list_ascii cs /\ canonical cs = true
    /\ horner 0 cs < 2 ^ 128.
Proof.
  unfold valid_native_id. intros H. apply andb_prop in H as [Hcan Hfit].
  destruct (canonical_inv _ Hcan) as (Hne & Hall & _).
  exists (list_ascii_of_string n).
  split; [symmetry; apply string_of_list_ascii_of_string|].
  split; [done|].
  pose proof (int_base36_native _ Hne Hall) as Hint.
  rewrite string_of_list_ascii_of_string in Hint. rewrite Hint in Hfit.
  by apply Z.ltb_lt.
Qed.

(** C4.  For every valid native id [n] (the lower-case base-36 numeral,
    without leading zero, of a number that fits 128 bits), the identifier
    [UUID(int=int(n, 36))] exists and [base_repr(id.int, 36).lower()] gives
    [n] back. *)
Theorem native_id_round_trip (n : string) :
  valid_native_id n = true ->
  exists id, identifier_of n = Ok id /\ native_id_of id = Ok n.
Proof.
  intros H. destruct (valid_native_id_inv n H) as (cs & -> & Hcan & Hfit).
  exists (mkUUID (horner 0 cs)). split.
  - by apply identifier_of_canonical.
  - by apply native_id_of_canonical.
Qed.

(** The id ["abc"] is valid, and 13368 is its identifier. *)
Lemma native_id_round_trip_witness :
  exists id, identifier_of "abc" = Ok id /\ native_id_of id = Ok "abc".
Proof. apply (native_id_round_trip "abc"). reflexivity. Defined.

(** Spellings that [int] accepts but the service does not issue do not come
    back: upper case, a leading zero, a sign, blanks, an underscore. *)
Example non_canonical_spellings :
  identifier_of "ABC" = Ok (mkUUID 13368)
  /\ identifier_of "0abc" = Ok (mkUUID 13368)
  /\ identifier_of " +a_bc " = Ok (mkUUID 13368)
  /\ native_id_of (mkUUID 13368) = Ok "abc".
Proof. repeat split; reflexivity. Qed.

Lemma native_char_facts (d : Z) :
  0 <= d < 36 ->
  is_native_digit (native_char d) = true
  /\ dv (native_char d) = d
  /\ (native_char d = "0"%char -> d = 0).
Proof.
  intros Hd.
  assert (Hall : forallb native_char_check (map Z.of_nat (seq 0 36)) = true)
    by (vm_compute; reflexivity).
  rewrite forallb_forall in Hall.
  assert (Hin : In d (map Z.of_nat (seq 0 36))).
  { apply in_map_iff. exists (Z.to_nat d). split; [lia|].
    apply in_seq. lia. }
  apply Hall in Hin. unfold native_char_check in Hin.
  apply andb_prop in Hin as [Hin H3]. apply andb_prop in Hin as [H1 H2].
  apply Z.eqb_eq in H2. apply Bool.eqb_prop in H3.
  repeat split; [done|done|].
  intros Hc. apply Ascii.eqb_eq in Hc. rewrite Hc in H3.
  symmetry in H3. by apply Z.eqb_eq in H3.
Qed.

(** Every positive number has a numeral without leading zero. *)
Lemma numeral_exists (x : Z) :
  0 < x ->
  exists cs,
    cs <> [] /\ forallb is_native_digit cs = true
    /\ no_leading_zero cs /\ horner 0 cs = x.
Proof.
  intros Hx. assert (H0 : 0 <= x) by lia. revert Hx.
  pattern x. apply Z_lt_induction; [|done]. clear x H0.
  intros x IH Hx.
  pose proof (Z.div_mod x 36 ltac:(lia)) as Hdm.
  pose proof (Z.mod_pos_bound x 36 ltac:(lia)) as Hm.
  destruct (native_char_facts (x mod 36) Hm) as (Hd1 & Hd2 & Hd3).
  destruct (Z.eq_dec (x / 36) 0) as [Hq|Hq].
  - exists [native_char (x mod 36)]. repeat split.
    + done.
    + simpl. by rewrite Hd1.
    + simpl. intros Hc. apply Hd3 in Hc. lia.
    + unfold horner. simpl. lia.
  - assert (Hq' : 0 < x / 36).
    { pose proof (Z.div_pos x 36 ltac:(lia) ltac:(lia)). lia. }
    destruct (IH (x / 36) ltac:(lia) Hq') as (cs & Hne & Hall & Hlz & Hh).
    exists (cs ++ [native_char (x mod 36)]). repeat split.
    + by destruct cs.
    + rewrite forallb_app. simpl. by rewrite Hall, Hd1.
    + by destruct cs.
    + rewrite horner_app, Hh, Hd2. lia.
Qed.

(** X1.  The converse round trip: every 128-bit identifier has a native
    id, which is valid and whose identifier it is. *)
Lemma identifier_round_trip (x : Z) :
  0 <= x < 2 ^ 128 ->
  exists n,
    native_id_of (mkUUID x) = Ok n
    /\ valid_native_id n = true
    /\ identifier_of n = Ok (mkUUID x).
Proof.
  intros Hx.
  assert (Hcs : exists cs, canonical cs = true /\ horner 0 cs = x).
  { destruct (Z.eq_dec x 0) as [->|Hne].
    - by exists ["0"%char].
    - destruct (numeral_exists x ltac:(lia)) as (cs & Hn & Hall & Hlz & Hh).
      exists cs. split; [|done]. destruct cs as [|c cs]; [done|].
      unfold canonical. rewrite Hall. simpl in Hlz.
      destruct (Ascii.eqb_spec c "0"%char); done. }
  destruct Hcs as (cs & Hcan & Hh).
  destruct (canonical_inv _ Hcan) as (Hne & Hall & _).
  exists (string_of_list_ascii cs).
  rewrite <- Hh. split; [by apply native_id_of_canonical|].
  split; [|apply identifier_of_canonical; [done|lia]].
  unfold valid_native_id.
  rewrite list_ascii_of_string_of_list_ascii, Hcan, int_base36_native
    by done.
  simpl. apply Z.ltb_lt. lia.
Qed.

End Base36Facts.

(** ** The scrap pipeline *)

Section PipelineFacts.
Context {E : Externals}.
Import Base36.

Lemma lock_neutral_ret {A} (a : A) : lock_neutral (ret a).
Proof. by intros σ. Qed.

Lemma lock_neutral_raise {A} (e : exn) : lock_neutral (raise (A := A) e).
Proof. by intros σ. Qed.

Lemma lock_neutral_lift {A} (r : result A) : lock_neutral (lift r).
Proof. by intros σ. Qed.

Lemma lock_neutral_call {A} (c : Call) (f : Eff A) : lock_neutral (call c f).
Proof. intros σ. unfold call. by destruct (f (world σ)). Qed.

Lemma lock_neutral_bind {A B} (m : M A) (k : A -> M B) :
  lock_neutral m -> (forall a, lock_neutral (k a)) -> lock_neutral (bind m k).
Proof.
  intros Hm Hk σ. unfold bind. specialize (Hm σ).
  destruct (m σ) as [[a|e] σ1]; simpl in *; [|done].
  destruct (Hk a σ1) as [-> ->]. done.
Qed.

Create HintDb locks.
#[local] Hint Resolve lock_neutral_ret lock_neutral_raise lock_neutral_lift
  lock_neutral_call lock_neutral_bind : locks.

Lemma lock_neutral_score_submission (st : State) (s : Submission) :
  lock_neutral (score_submission st s).
Proof.
  unfold score_submission. apply lock_neutral_bind; [auto with locks|].
  intros v. destruct (score_modifier st); auto with locks.
Qed.

Lemma lock_neutral_translate (st : State) (s : Submission) :
  lock_neutral (translate st s).
Proof. unfold translate. auto with locks. Qed.

(** One round of [_fetch]. *)
Lemma _fetch_nil (st : State) (σ : Sigma) :
  _fetch st [] σ = Returned (release_read (acquire_read σ)).
Proof. reflexivity. Qed.

Lemma _fetch_emits (st : State) (s : Submission) (rest : list Submission)
  (t : Triple) (σ : Sigma) :
  behaves st s (Emits t) ->
  exists σ1,
    _fetch st (s :: rest) σ
    = Yielded t σ1 (fun σ' => _fetch st rest (release_read σ')) release_read
    /\ readers σ1 = S (readers σ) /\ writers σ1 = writers σ.
Proof.
  destruct t as [[id data] score]. intros (Hid & Hscore & Htr).
  simpl. unfold bind at 1. unfold lift at 1. rewrite Hid. unfold bind at 1.
  specialize (Hscore (acquire_read σ)).
  destruct (lock_neutral_score_submission st s (acquire_read σ)) as [Hr Hw].
  destruct (score_submission st s (acquire_read σ)) as [r σ1].
  simpl in Hscore, Hr, Hw. subst r. unfold ret at 1.
  specialize (Htr σ1).
  destruct (lock_neutral_translate st s σ1) as [Hr' Hw'].
  destruct (translate st s σ1) as [r σ2]. simpl in Htr, Hr', Hw'. subst r.
  exists σ2. split; [done|]. simpl in *. split; congruence.
Qed.

Lemma _fetch_skips (st : State) (s : Submission) (rest : list Submission)
  (σ : Sigma) :
  behaves st s Skipped ->
  exists σ1,
    _fetch st (s :: rest) σ = _fetch st rest σ1
    /\ readers σ1 = readers σ /\ writers σ1 = writers σ.
Proof.
  intros (id & score & e & Hid & Hscore & Htr & He).
  simpl. unfold bind at 1. unfold lift at 1. rewrite Hid. unfold bind at 1.
  specialize (Hscore (acquire_read σ)).
  destruct (lock_neutral_score_submission st s (acquire_read σ)) as [Hr Hw].
  destruct (score_submission st s (acquire_read σ)) as [r σ1].
  simpl in Hscore, Hr, Hw. subst r. unfold ret at 1.
  specialize (Htr σ1).
  destruct (lock_neutral_translate st s σ1) as [Hr' Hw'].
  destruct (translate st s σ1) as [r σ2]. simpl in Htr, Hr', Hw'. subst r.
  rewrite He. exists (release_read σ2). split; [done|].
  simpl in *. split; [rewrite Hr', Hr; done | congruence].
Qed.

Lemma _fetch_aborts (st : State) (s : Submission) (rest : list Submission)
  (e : exn) (σ : Sigma) :
  behaves st s (Aborts e) ->
  exists σ1,
    _fetch st (s :: rest) σ = Raised e σ1
    /\ readers σ1 = readers σ /\ writers σ1 = writers σ.
Proof.
  intros [Hid | [(id & Hid & Hscore) | (id & score & Hid & Hscore & Htr & He)]];
    simpl; unfold bind at 1; unfold lift at 1; rewrite Hid.
  - eexists. split; [done|]. done.
  - unfold bind at 1. specialize (Hscore (acquire_read σ)).
    destruct (lock_neutral_score_submission st s (acquire_read σ))
      as [Hr Hw].
    destruct (score_submission st s (acquire_read σ)) as [r σ1].
    simpl in Hscore, Hr, Hw. subst r.
    eexists. split; [done|]. simpl in *. split; [by rewrite Hr | done].
  - unfold bind at 1. specialize (Hscore (acquire_read σ)).
    destruct (lock_neutral_score_submission st s (acquire_read σ))
      as [Hr Hw].
    destruct (score_submission st s (acquire_read σ)) as [r σ1].
    simpl in Hscore, Hr, Hw. subst r. unfold ret at 1.
    specialize (Htr σ1).
    destruct (lock_neutral_translate st s σ1) as [Hr' Hw'].
    destruct (translate st s σ1) as [r σ2]. simpl in Htr, Hr', Hw'. subst r.
    rewrite He. eexists. split; [done|].
    simpl in *. split; [rewrite Hr', Hr; done | congruence].
Qed.

(** Draining [_fetch]: the triples of the run and its ending, with the
    read lock given back. *)
Lemma drain_fetch (st : State) (items : list Submission)
  (bs : list Behaviour) :
  run st items bs ->
  forall σ, exists σ',
    drain (_fetch st items σ) = (emitted_of bs, ending_of bs, σ')
    /\ readers σ' = readers σ /\ writers σ' = writers σ.
Proof.
  induction 1 as [|s rest t bs Hb _ IH|s rest bs Hb _ IH|s rest e Hb];
    intros σ.
  - rewrite _fetch_nil. eexists. split; [done|]. done.
  - destruct (_fetch_emits st s rest t σ Hb) as (σ1 & -> & Hr & Hw).
    simpl. destruct (IH (release_read σ1)) as (σ' & -> & Hr' & Hw').
    exists σ'. split; [done|]. simpl in *. split; [by rewrite Hr', Hr | congruence].
  - destruct (_fetch_skips st s rest σ Hb) as (σ1 & -> & Hr & Hw).
    destruct (IH σ1) as (σ' & -> & Hr' & Hw').
    exists σ'. split; [done|]. split; congruence.
  - destruct (_fetch_aborts st s rest e σ Hb) as (σ1 & -> & Hr & Hw).
    exists σ1. done.
Qed.

(** Draining [take]: at most [n - i] further triples; when the limit is
    reached the source is closed and the stream ends normally. *)
Lemma drain_take_loop (st : State) (items : list Submission)
  (bs : list Behaviour) (n : Z) :
  run st items bs ->
  forall i σ, 0 <= i < n ->
    exists σ',
      drain (take_loop n i (_fetch st items σ))
      = (firstn (Z.to_nat (n - i)) (emitted_of bs),
         if n - i <=? Z.of_nat (length (emitted_of bs)) then Ok tt
         else ending_of bs,
         σ')
      /\ readers σ' = readers σ /\ writers σ' = writers σ.
Proof.
  induction 1 as [|s rest t bs Hb _ IH|s rest bs Hb _ IH|s rest e Hb];
    intros i σ Hi.
  - rewrite _fetch_nil. simpl. rewrite firstn_nil.
    eexists. split; [by destruct (n - i <=? Z.of_nat 0)|]. done.
  - destruct (_fetch_emits st s rest t σ Hb) as (σ1 & -> & Hr & Hw).
    simpl take_loop. simpl drain.
    destruct (n - 1 <=? i) eqn:Hlast.
    + apply Z.leb_le in Hlast. assert (Hni : n - i = 1) by lia.
      rewrite Hni. change (Z.to_nat 1) with 1%nat.
      simpl firstn. simpl emitted_of. simpl length. rewrite firstn_O.
      destruct (1 <=? Z.of_nat (S (length (emitted_of bs)))) eqn:Hc;
        [|apply Z.leb_gt in Hc; lia].
      eexists. split; [done|]. simpl. split; [by rewrite Hr | done].
    + apply Z.leb_gt in Hlast.
      destruct (IH (i + 1) (release_read σ1) ltac:(lia))
        as (σ' & -> & Hr' & Hw').
      exists σ'. split.
      * replace (Z.to_nat (n - i)) with (S (Z.to_nat (n - (i + 1)))) by lia.
        simpl firstn. simpl emitted_of. simpl length. simpl ending_of.
        f_equal. f_equal.
        destruct (n - (i + 1) <=? Z.of_nat (length (emitted_of bs))) eqn:Hc;
          [apply Z.leb_le in Hc | apply Z.leb_gt in Hc].
        -- destruct (n - i <=? Z.of_nat (S (length (emitted_of bs)))) eqn:Hd;
             [done | apply Z.leb_gt in Hd; lia].
        -- destruct (n - i <=? Z.of_nat (S (length (emitted_of bs)))) eqn:Hd;
             [apply Z.leb_le in Hd; lia | done].
      * simpl in *. split; [by rewrite Hr', Hr | congruence].
  - destruct (_fetch_skips st s rest σ Hb) as (σ1 & -> & Hr & Hw).
    destruct (IH i σ1 Hi) as (σ' & -> & Hr' & Hw').
    exists σ'. split; [done|]. split; congruence.
  - destruct (_fetch_aborts st s rest e σ Hb) as (σ1 & -> & Hr & Hw).
    simpl drain. simpl emitted_of. simpl ending_of. simpl length.
    rewrite firstn_nil. change (Z.of_nat 0) with 0.
    destruct (n - i <=? 0) eqn:Hc; [apply Z.leb_le in Hc; lia|].
    exists σ1. done.
Qed.

(** The export as its caller sees it. *)
Lemma drain_scrap (st : State) (limit : option Z)
  (before after : option Datetime) (bs : list Behaviour) :
  run st (scraper_scrap (ops (scraper st)) (client st) before after) bs ->
  forall σ, exists σ',
    drain (scrap st limit before after σ)
    = ((export_of limit bs).1, (export_of limit bs).2, σ')
    /\ readers σ' = readers σ /\ writers σ' = writers σ.
Proof.
  intros Hrun σ. unfold scrap, export_of.
  set (σ0 := release_read (acquire_read σ)).
  assert (H0 : readers σ0 = readers σ /\ writers σ0 = writers σ) by done.
  destruct H0 as [Hr0 Hw0].
  destruct limit as [n|].
  - unfold take. destruct (n <=? 0) eqn:Hn.
    + apply Z.leb_le in Hn. simpl.
      replace (Z.to_nat n) with O by lia. simpl.
      destruct (n <=? Z.of_nat (length (emitted_of bs))) eqn:Hc;
        [|apply Z.leb_gt in Hc; lia].
      exists σ0. done.
    + apply Z.leb_gt in Hn.
      destruct (drain_take_loop st _ bs n Hrun 0 σ0 ltac:(lia))
        as (σ' & Hd & Hr & Hw).
      rewrite Z.sub_0_r in Hd. exists σ'. split; [done|].
      split; congruence.
  - destruct (drain_fetch st _ bs Hrun σ0) as (σ' & Hd & Hr & Hw).
    exists σ'. split; [done|]. split; congruence.
Qed.

(** Items that are all emitted, followed by a run. *)
Lemma run_emits_app (st : State) (front : list Submission)
  (triple : Submission -> Triple) (rest : list Submission)
  (bs : list Behaviour) :
  (forall s, s ∈ front -> behaves st s (Emits (triple s))) ->
  run st rest bs ->
  run st (front ++ rest) (map (fun s => Emits (triple s)) front ++ bs).
Proof.
  intros Hfront Hrest. induction front as [|s front IH]; [done|].
  simpl. apply run_emit.
  - apply Hfront. by left.
  - apply IH. intros s' Hs'. apply Hfront. by right.
Qed.

Lemma emitted_of_emits_app (front : list Submission)
  (triple : Submission -> Triple) (bs : list Behaviour) :
  emitted_of (map (fun s => Emits (triple s)) front ++ bs)
  = map triple front ++ emitted_of bs.
Proof. induction front as [|s front IH]; [done|]. simpl. by rewrite IH. Qed.

Lemma ending_of_emits_app (front : list Submission)
  (triple : Submission -> Triple) (bs : list Behaviour) :
  ending_of (map (fun s => Emits (triple s)) front ++ bs) = ending_of bs.
Proof. induction front as [|s front IH]; [done|]. done. Qed.

(** A run that was not aborted, followed by a submission that aborts. *)
Lemma run_app_abort (st : State) (pre : list Submission)
  (bs : list Behaviour) (k : Submission) (post : list Submission)
  (e : exn) :
  run st pre bs -> ending_of bs = Ok tt -> behaves st k (Aborts e) ->
  run st (pre ++ k :: post) (bs ++ [Aborts e])
  /\ emitted_of (bs ++ [Aborts e]) = emitted_of bs
  /\ ending_of (bs ++ [Aborts e]) = Raise e.
Proof.
  intros Hrun Hend Hk.
  induction Hrun as [|s rest t bs Hb _ IH|s rest bs Hb _ IH|s rest e' Hb].
  - simpl. split; [by apply run_abort|done].
  - destruct (IH Hend) as (H1 & H2 & H3).
    simpl. split; [by apply run_emit|]. split; [by rewrite H2|done].
  - destruct (IH Hend) as (H1 & H2 & H3).
    simpl. split; [by apply run_skip|]. done.
  - discriminate.
Qed.

(** The submissions behind the triples of a run: a subsequence of the
    source, each of them emitted. *)
Lemma emitted_in_source_order (st : State) (items : list Submission)
  (bs : list Behaviour) :
  run st items bs ->
  exists kept,
    kept `sublist_of` items
    /\ Forall2 (fun s t => behaves st s (Emits t)) kept (emitted_of bs).
Proof.
  induction 1 as [|s rest t bs Hb _ IH|s rest bs Hb _ IH|s rest e Hb].
  - exists []. split; [done|constructor].
  - destruct IH as (kept & Hsub & Hall). exists (s :: kept).
    split; [by apply sublist_skip|by constructor].
  - destruct IH as (kept & Hsub & Hall). exists kept.
    split; [by apply sublist_cons|done].
  - exists []. split; [apply sublist_nil_l|constructor].
Qed.

Lemma emitted_of_length (bs : list Behaviour) :
  (length (emitted_of bs) <= length (List.filter is_emitted bs))%nat.
Proof.
  induction bs as [|[t| |e] bs IH]; simpl; lia.
Qed.

(** C1.  In a scrap sequence [pre ++ k :: post] whose items all have a
    convertible id and are all scored, and of which [k] alone fails to
    translate (with an [Exception]), the export emits the triples of
    [pre ++ post], in this order: one less than the length of the
    sequence, none for [k], the items after [k] included; it ends without
    an error and with the read lock released.  The limit, if any, is
    supposed not to cut the export short. *)
Theorem translation_failure_skips_item (st : State) (limit : option Z)
  (before after : option Datetime)
  (pre : list Submission) (k : Submission) (post : list Submission)
  (id : Submission -> UUID) (tr : Submission -> Content)
  (sc : Submission -> Score) (e : exn) :
  scraper_scrap (ops (scraper st)) (client st) before after
  = pre ++ k :: post ->
  (forall s, s ∈ pre ++ k :: post ->
             identifier_of (submission_id s) = Ok (id s)) ->
  (forall s, s ∈ pre ++ k :: post ->
             outcome (score_submission st s) (Ok (sc s))) ->
  (forall s, s ∈ pre ++ post -> outcome (translate st s) (Ok (tr s))) ->
  outcome (translate st k) (Raise e) ->
  is_Exception e = true ->
  limit_admits limit (length (pre ++ post)) ->
  forall σ, exists emitted σ',
    drain (scrap st limit before after σ) = (emitted, Ok tt, σ')
    /\ emitted = map (fun s => (id s, tr s, sc s)) (pre ++ post)
    /\ length emitted = (length (pre ++ k :: post) - 1)%nat
    /\ readers σ' = readers σ.
Proof.
  intros Hsrc Hid Hsc Htr Hk He Hlimit σ.
  set (triple := fun s : Submission => (id s, tr s, sc s)).
  assert (Hin : forall s, s ∈ pre ++ post -> s ∈ pre ++ k :: post).
  { intros s Hs. apply elem_of_app in Hs as [Hs|Hs]; apply elem_of_app;
      [by left | right; by right]. }
  assert (Hemit : forall s, s ∈ pre ++ post -> behaves st s (Emits (triple s))).
  { intros s Hs. simpl. repeat split; [apply Hid|apply Hsc|apply Htr]; auto. }
  assert (Hskip : behaves st k Skipped).
  { assert (Hkin : k ∈ pre ++ k :: post)
      by (apply elem_of_app; right; by left).
    exists (id k), (sc k), e. repeat split; auto. }
  assert (Hrun : run st (pre ++ k :: post)
                   (map (fun s => Emits (triple s)) pre
                    ++ Skipped :: map (fun s => Emits (triple s)) post)).
  { apply run_emits_app.
    { intros s Hs. apply Hemit, elem_of_app. by left. }
    apply run_skip; [done|].
    rewrite <- (app_nil_r post) at 1.
    rewrite <- (app_nil_r (map _ post)).
    apply run_emits_app; [|constructor].
    intros s Hs. apply Hemit, elem_of_app. by right. }
  rewrite <- Hsrc in Hrun.
  destruct (drain_scrap st limit before after _ Hrun σ) as (σ' & Hd & Hr & _).
  set (bs := map (fun s => Emits (triple s)) pre
             ++ Skipped :: map (fun s => Emits (triple s)) post) in *.
  assert (Hem : emitted_of bs = map triple (pre ++ post)).
  { unfold bs. rewrite emitted_of_emits_app. simpl.
    rewrite <- (app_nil_r (map (fun s => Emits (triple s)) post)).
    rewrite emitted_of_emits_app. simpl. by rewrite app_nil_r, map_app. }
  assert (Hen : ending_of bs = Ok tt).
  { unfold bs. rewrite ending_of_emits_app. simpl.
    rewrite <- (app_nil_r (map (fun s => Emits (triple s)) post)).
    by rewrite ending_of_emits_app. }
  assert (Hex : export_of limit bs = (map triple (pre ++ post), Ok tt)).
  { unfold export_of. rewrite Hem, Hen. destruct limit as [n|]; [|done].
    simpl in Hlimit. rewrite firstn_all2 by (rewrite length_map; lia).
    by destruct (n <=? _). }
  rewrite Hex in Hd. simpl in Hd.
  exists (map triple (pre ++ post)), σ'. repeat split; [done| |done].
  rewrite length_map, !length_app. simpl. lia.
Qed.

(** A scorer that raises, and a modifier that raises on what the scorer
    returned, make the scoring of the submission raise. *)
Lemma scorer_raises (st : State) (s : Submission) (e : exn) :
  (forall w, (scorer_score (ops (scorer st)) s w).1 = Raise e) ->
  outcome (score_submission st s) (Raise e).
Proof.
  intros H σ. unfold score_submission, bind, call. specialize (H (world σ)).
  destruct (scorer_score (ops (scorer st)) s (world σ)) as [r w].
  simpl in H. by subst r.
Qed.

Lemma modifier_raises (st : State) (m : ScoreModifier) (s : Submission)
  (raw : Score) (e : exn) :
  score_modifier st = Some m ->
  (forall w, (scorer_score (ops (scorer st)) s w).1 = Ok raw) ->
  (forall w, (modify (ops m) s raw w).1 = Raise e) ->
  outcome (score_submission st s) (Raise e).
Proof.
  intros Hm Hs He σ. unfold score_submission, bind, call. rewrite Hm.
  specialize (Hs (world σ)).
  destruct (scorer_score (ops (scorer st)) s (world σ)) as [r w].
  simpl in Hs. subst r. simpl. specialize (He w).
  destruct (modify (ops m) s raw w) as [r w']. simpl in He. by subst r.
Qed.

(** C2.  When the pipeline gets to the item [k] of the scrap sequence
    [pre ++ k :: post] (no item of [pre] aborted the stream, and the
    limit, if any, is not reached by the triples of [pre]) and the scorer
    raises [e] on [k], or the scorer returns a score and the modifier that
    is set raises [e] on it, the export ends with [e] raised to its
    caller; the triples emitted are those of the items before [k] only,
    and the read lock is released. *)
Theorem scoring_failure_aborts_stream (st : State) (limit : option Z)
  (before after : option Datetime)
  (pre : list Submission) (k : Submission) (post : list Submission)
  (bs : list Behaviour) (id : UUID) (e : exn) :
  scraper_scrap (ops (scraper st)) (client st) before after
  = pre ++ k :: post ->
  run st pre bs ->
  ending_of bs = Ok tt ->
  identifier_of (submission_id k) = Ok id ->
  scoring_fails st k e ->
  match limit with
  | None => True
  | Some n => Z.of_nat (length (emitted_of bs)) < n
  end ->
  forall σ, exists σ',
    drain (scrap st limit before after σ) = (emitted_of bs, Raise e, σ')
    /\ readers σ' = readers σ.
Proof.
  intros Hsrc Hrun Hend Hid Hfails Hlimit σ.
  assert (Hscore : outcome (score_submission st k) (Raise e)).
  { destruct Hfails as [Hs | (m & raw & Hm & Hs & He)].
    - by apply scorer_raises.
    - by apply (modifier_raises st m k raw). }
  assert (Hk : behaves st k (Aborts e)) by (right; left; eauto).
  destruct (run_app_abort st pre bs k post e Hrun Hend Hk)
    as (Hrun' & Hem & Hen).
  rewrite <- Hsrc in Hrun'.
  destruct (drain_scrap st limit before after _ Hrun' σ)
    as (σ' & Hd & Hr & _).
  exists σ'. split; [|done]. rewrite Hd. unfold export_of.
  rewrite Hem, Hen. destruct limit as [n|]; [|done]. simpl.
  rewrite firstn_all2 by lia.
  destruct (n <=? Z.of_nat (length (emitted_of bs))) eqn:Hc;
    [apply Z.leb_le in Hc; lia | done].
Qed.

(** C3.  Under a limit [n], the export of a run emits the first [n]
    triples of the run: at most [n] of them, never more than the run has
    translated items, exactly [n] when the run emits that many however
    many items it skipped; the triples are those of a subsequence of the
    source, in the order of the source. *)
Theorem limit_bounds_export (st : State) (n : Z)
  (before after : option Datetime) (bs : list Behaviour) :
  run st (scraper_scrap (ops (scraper st)) (client st) before after) bs ->
  forall σ, exists emitted r σ',
    drain (scrap st (Some n) before after σ) = (emitted, r, σ')
    /\ emitted = firstn (Z.to_nat n) (emitted_of bs)
    /\ (length emitted <= Z.to_nat n)%nat
    /\ (length emitted <= length (List.filter is_emitted bs))%nat
    /\ length emitted = Nat.min (Z.to_nat n) (length (emitted_of bs))
    /\ exists kept,
         kept `sublist_of`
           scraper_scrap (ops (scraper st)) (client st) before after
         /\ Forall2 (fun s t => behaves st s (Emits t)) kept emitted.
Proof.
  intros Hrun σ.
  destruct (drain_scrap st (Some n) before after _ Hrun σ)
    as (σ' & Hd & _).
  simpl in Hd. eexists _, _, σ'. split; [exact Hd|].
  split; [done|].
  pose proof (emitted_of_length bs) as Hlen.
  rewrite length_firstn.
  repeat split; try lia.
  destruct (emitted_in_source_order st _ bs Hrun) as (kept & Hsub & Hall).
  exists (firstn (Z.to_nat n) kept). split.
  - etrans; [apply sublist_take|done].
  - by apply Forall2_take.
Qed.

(** C8.  When the first submission of the sequence is emitted, the export
    hands its triple over from inside the locked section: while the caller
    holds the triple the stream is suspended with one more read lock held
    than before the export.  The lock is given back only when the caller
    asks for the next item or closes the stream. *)
Theorem scrap_yields_inside_read_lock (st : State) (limit : option Z)
  (before after : option Datetime)
  (s : Submission) (rest : list Submission) (t : Triple) :
  scraper_scrap (ops (scraper st)) (client st) before after = s :: rest ->
  behaves st s (Emits t) ->
  limit_admits limit 1 ->
  forall σ,
    (exists σ1 resume close,
        scrap st limit before after σ = Yielded t σ1 resume close)
    /\ readers (gen_sigma (scrap st limit before after σ)) = S (readers σ)
    /\ readers (aclose (scrap st limit before after σ)) = readers σ.
Proof.
  intros Hsrc Hb Hlimit σ. unfold scrap. rewrite Hsrc.
  set (σ0 := release_read (acquire_read σ)).
  destruct (_fetch_emits st s rest t σ0 Hb) as (σ1 & Hf & Hr & _).
  destruct limit as [n|].
  - simpl in Hlimit. unfold take.
    destruct (n <=? 0) eqn:Hn; [apply Z.leb_le in Hn; lia|].
    rewrite Hf. simpl. split; [by eexists σ1, _, _|]. by rewrite Hr.
  - rewrite Hf. simpl. split; [by eexists σ1, _, _|]. by rewrite Hr.
Qed.

End PipelineFacts.

(** ** [post] *)

Section PostFacts.
Context {E : Externals}.
Import Base36.

(** [post] hands back the [id] and the [url] of the record its poster
    returned, whatever the poster. *)
Lemma post_returns_poster_record (st : State) (content : Content)
  (data : Data) (record : PostRecord) (σ : Sigma) (w1 w2 w3 : W) :
  to_internal (ops (processor st)) content (world σ) = (Ok data, w1) ->
  match restriction st with
  | Some r => check (ops r) data w1 = (Ok true, w2)
  | None => w2 = w1
  end ->
  poster_post (ops (poster st)) (subreddit st) data w2 = (Ok record, w3) ->
  post st content σ
  = (Ok (post_id record, post_url record),
     mkSigma w3 (readers σ) (writers σ)
       (calls σ ++ [ProcessorToInternal]
        ++ match restriction st with
           | Some _ => [RestrictionCheck]
           | None => []
           end
        ++ [PosterPost])).
Proof.
  intros Hin Hcheck Hpost.
  unfold post, read_lock, bind, call, ret. simpl. rewrite Hin. simpl.
  destruct (restriction st) as [r|].
  - simpl. rewrite Hcheck. simpl. rewrite Hpost. simpl.
    by rewrite <- !app_assoc.
  - subst w2. simpl. rewrite Hpost. simpl. by rewrite <- !app_assoc.
Qed.

(** C7.  When a restriction is set and its check of the internal form of
    the content answers false, [post] raises
    [ValueError("Post is not allowed to be posted.")]; it has called the
    processor and the restriction and nothing else, so the poster was not
    invoked and the world is as the check left it; the read lock is
    released. *)
Theorem restriction_veto_rejects (st : State) (r : Restriction)
  (content : Content) (data : Data) (σ : Sigma) (w1 w2 : W) :
  restriction st = Some r ->
  to_internal (ops (processor st)) content (world σ) = (Ok data, w1) ->
  check (ops r) data w1 = (Ok false, w2) ->
  post st content σ
  = (Raise (ValueError "Post is not allowed to be posted."),
     mkSigma w2 (readers σ) (writers σ)
       (calls σ ++ [ProcessorToInternal; RestrictionCheck]))
  /\ PosterPost ∉ [ProcessorToInternal; RestrictionCheck].
Proof.
  intros Hr Hin Hcheck. split.
  - unfold post, read_lock, bind, call, ret, raise. simpl.
    rewrite Hin. simpl. rewrite Hr. simpl. rewrite Hcheck. simpl.
    by rewrite <- app_assoc.
  - intros Hin'. repeat (apply elem_of_cons in Hin' as [?|Hin']; [done|]).
    by apply elem_of_nil in Hin'.
Qed.

(** C9.  When the restriction, if any, accepts the internal form of the
    content, [post] returns what its poster returns: for a poster that
    submits to the remote service, the identifier derived from the native
    id of the new item by reading it in base 36, and the public URL of the
    item when it has one. *)
Theorem post_returns_identifier (st : State)
  (submit : Subreddit -> Data -> Eff NativeItem)
  (content : Content) (data : Data) (item : NativeItem) (id : UUID)
  (σ : Sigma) (w1 w2 w3 : W) :
  ops (poster st) = remote_poster submit ->
  to_internal (ops (processor st)) content (world σ) = (Ok data, w1) ->
  match restriction st with
  | Some r => check (ops r) data w1 = (Ok true, w2)
  | None => w2 = w1
  end ->
  submit (subreddit st) data w2 = (Ok item, w3) ->
  identifier_of (native_id item) = Ok id ->
  exists σ',
    post st content σ = (Ok (id, native_url item), σ')
    /\ int_base36 (native_id item) = Ok (uuid_int id)
    /\ world σ' = w3
    /\ readers σ' = readers σ.
Proof.
  intros Hposter Hin Hcheck Hsubmit Hid.
  assert (Hpost : poster_post (ops (poster st)) (subreddit st) data w2
                  = (Ok (mkPostRecord id (native_url item)), w3)).
  { rewrite Hposter. unfold remote_poster. simpl.
    unfold bind, lift, ret. by rewrite Hsubmit, Hid. }
  rewrite (post_returns_poster_record st content data
             (mkPostRecord id (native_url item)) σ w1 w2 w3) by done.
  eexists. split; [reflexivity|].
  split; [|done]. unfold identifier_of, UUID_of_int in Hid.
  destruct (int_base36 (native_id item)) as [x|]; [|done].
  destruct ((0 <=? x) && (x <? 2 ^ 128)); [|done].
  by inversion Hid.
Qed.

(** X4.  [score] asks the client for the submission whose native id is
    the one the identifier was derived from. *)
Lemma score_fetches_native_submission (st : State) (n : string) (id : UUID)
  (σ : Sigma) :
  valid_native_id n = true ->
  identifier_of n = Ok id ->
  score st id σ
  = read_lock
      (submission <- call ClientSubmission
                       (reddit_submission (client st) n) ;;
       score_submission st submission) σ.
Proof.
  intros Hvalid Hid.
  destruct (valid_native_id_inv n Hvalid) as (cs & -> & Hcan & Hfit).
  rewrite identifier_of_canonical in Hid by done. inversion Hid; subst id.
  unfold score, read_lock, bind at 1, lift.
  by rewrite native_id_of_canonical.
Qed.

End PostFacts.

(** ** [cleanup] *)

Section CleanupFacts.
Context {E : Externals}.

Lemma run_logged_app (s1 s2 : list (Call * Eff unit)) (w : W) :
  run_logged (s1 ++ s2) w
  = (let '(r, w1, c1) := run_logged s1 w in
     match r with
     | Ok _ => let '(r2, w2, c2) := run_logged s2 w1 in (r2, w2, c1 ++ c2)
     | Raise e => (Raise e, w1, c1)
     end).
Proof.
  revert w. induction s1 as [|[c f] s1 IH]; intros w; simpl.
  - by destruct (run_logged s2 w) as [[r2 w2] c2].
  - destruct (f w) as [[[]|e] w1]; [|done]. rewrite IH.
    destruct (run_logged s1 w1) as [[[[]|e] w2] c1]; [|done].
    by destruct (run_logged s2 w2) as [[r3 w3] c3].
Qed.

Lemma performs_ret : performs (ret tt) [].
Proof. intros [w r wr cs]. unfold ret. simpl. by rewrite app_nil_r. Qed.

Lemma performs_call (c : Call) (f : Eff unit) : performs (call c f) [(c, f)].
Proof.
  intros σ. unfold call. simpl.
  by destruct (f (world σ)) as [[[]|e] w1].
Qed.

Lemma performs_bind (m1 m2 : M unit) (s1 s2 : list (Call * Eff unit)) :
  performs m1 s1 -> performs m2 s2 -> performs (m1 ;;; m2) (s1 ++ s2).
Proof.
  intros H1 H2 σ. unfold bind. rewrite H1, run_logged_app.
  destruct (run_logged s1 (world σ)) as [[[[]|e] w1] c1]; [|done].
  rewrite H2. simpl.
  destruct (run_logged s2 w1) as [[r2 w2] c2]. by rewrite app_assoc.
Qed.

Lemma performs_write_lock (m : M unit) (steps : list (Call * Eff unit)) :
  performs m steps -> performs (write_lock m) steps.
Proof.
  intros H σ. unfold write_lock. rewrite H. simpl.
  by destruct (run_logged steps (world σ)) as [[r w1] cs].
Qed.

Lemma performs_cleanup_if_configurable {Ops} (slot : string)
  (x : Strategy Ops) :
  performs (cleanup_if_configurable slot x)
    (map (fun c => (SlotCleanup c.1, c.2)) (cleanup_of slot x)).
Proof.
  unfold cleanup_if_configurable, cleanup_of.
  destruct (configurable x) as [c|]; [apply performs_call|apply performs_ret].
Qed.

Lemma performs_cleanup_optional {Ops} (slot : string)
  (x : option (Strategy Ops)) :
  performs (cleanup_optional slot x)
    (map (fun c => (SlotCleanup c.1, c.2)) (cleanup_of_optional slot x)).
Proof.
  destruct x as [i|];
    [apply performs_cleanup_if_configurable|apply performs_ret].
Qed.

(** [cleanup] runs the cleanups of the slots, in slot order, and then
    closes the client, up to the first of these that raises. *)
Lemma performs_cleanup (st : State) : performs (cleanup st) (cleanup_steps st).
Proof.
  unfold cleanup, cleanup_steps, base_cleanup, slot_cleanups.
  rewrite !map_app.
  apply performs_bind; apply performs_write_lock; [|apply performs_call].
  repeat apply performs_bind;
    apply performs_cleanup_if_configurable
    || apply performs_cleanup_optional.
Qed.

Lemma run_logged_ok (steps : list (Call * Eff unit)) :
  Forall (fun s => always_ok s.2) steps ->
  forall w, exists w',
    run_logged steps w = (Ok tt, w', map fst steps)
    /\ run_all (map snd steps) w = (Ok tt, w').
Proof.
  induction 1 as [|[c f] steps Hf _ IH]; intros w; [by exists w|].
  simpl in Hf. destruct (Hf w) as [w1 Hw1]. destruct (IH w1) as (w' & Hl & Ha).
  exists w'. simpl. unfold bind. by rewrite Hw1, Hl, Ha.
Qed.

Lemma run_logged_fails (before after : list (Call * Eff unit))
  (c : Call) (failing : Eff unit) (e : exn) :
  forall w w1 w2,
    run_all (map snd before) w = (Ok tt, w1) ->
    failing w1 = (Raise e, w2) ->
    run_logged (before ++ (c, failing) :: after) w
    = (Raise e, w2, map fst before ++ [c]).
Proof.
  induction before as [|[c0 f0] before IH]; intros w w1 w2 Hb Hf.
  - simpl in *. unfold ret in Hb. inversion Hb; subst w1. by rewrite Hf.
  - simpl in *. unfold bind in Hb.
    destruct (f0 w) as [[[]|e0] w0]; [|done].
    by rewrite (IH w0 w1 w2).
Qed.

Lemma cleanup_steps_calls (st : State) :
  map fst (cleanup_steps st) = cleanup_calls st.
Proof.
  unfold cleanup_steps, cleanup_calls, slot_calls.
  rewrite map_app, map_map. done.
Qed.

(** C10, as the code has it.  [cleanup] runs the cleanup of every slot
    instance that is [Configurable], in the order of the slots, and then
    closes the client: the world it leaves is the one these operations
    leave, run one after the other.  It keeps no record of having run:
    called again it runs the same operations again, on the world the
    first call left, and it succeeds both times provided these operations
    succeed whenever they are called. *)
Theorem cleanup_releases_slots_then_client (st : State) :
  Forall (fun c => always_ok c.2) (slot_cleanups st) ->
  always_ok (reddit_close (client st)) ->
  forall σ, exists σ1 σ2,
    cleanup st σ = (Ok tt, σ1)
    /\ run_all (map snd (cleanup_steps st)) (world σ) = (Ok tt, world σ1)
    /\ calls σ1 = calls σ ++ cleanup_calls st
    /\ cleanup st σ1 = (Ok tt, σ2)
    /\ run_all (map snd (cleanup_steps st)) (world σ1) = (Ok tt, world σ2)
    /\ calls σ2 = calls σ1 ++ cleanup_calls st
    /\ writers σ2 = writers σ.
Proof.
  intros Hslots Hclose σ.
  assert (Hall : Forall (fun s => always_ok s.2) (cleanup_steps st)).
  { unfold cleanup_steps. apply Forall_app. split.
    - apply Forall_map. by eapply Forall_impl; [apply Hslots|].
    - by constructor. }
  destruct (run_logged_ok _ Hall (world σ)) as (w1 & Hl1 & Ha1).
  destruct (run_logged_ok _ Hall w1) as (w2 & Hl2 & Ha2).
  pose proof (performs_cleanup st σ) as H1. rewrite Hl1 in H1.
  eexists. eexists. split; [exact H1|]. simpl.
  split; [done|]. rewrite cleanup_steps_calls. split; [done|].
  rewrite performs_cleanup. simpl. rewrite Hl2.
  split; [done|]. simpl. split; [done|].
  rewrite cleanup_steps_calls. done.
Qed.

End CleanupFacts.

(** ** Saving and loading the state *)

Section LifecycleFacts.
Context {E : Externals} {K : SDK}.
Variable post_type : string.

Lemma bind_ok {S A B} (m : SE S A) (k : A -> SE S B) (s s' : S) (b : B) :
  bind m k s = (Ok b, s') ->
  exists a s1, m s = (Ok a, s1) /\ k a s1 = (Ok b, s').
Proof.
  unfold bind. destruct (m s) as [[a|e] s1]; [eauto|done].
Qed.






(** C6.  For every slot, when the state dictionary has none of the keys
    of the slot (as the empty dictionary of a directory without manifest),
    loading resolves the slot as the default build does: the same category
    and the same parameters, taken from the configuration, are asked of
    the loader as of the builder; an optional slot that the configuration
    leaves out is empty in both; the parameter mapping stored in the state
    is that of the configuration. *)
Theorem load_falls_back_to_configuration (slot : Slot) (directory : Path)
  (state_dict : StateDict) (params : Params) :
  (forall key, key ∈ slot_keys slot -> state_dict !! key = None) ->
  resolved_as_default post_type slot directory state_dict params.
Proof.
  intros Habsent.
  assert (Htype : state_dict !! (hd "" (slot_keys slot)) = None)
    by (apply Habsent; destruct slot; by left).
  assert (Hparams : forall key, slot_keys slot !! 1%nat = Some key ->
                                state_dict !! key = None).
  { intros key Hkey. apply Habsent. by eapply list_elem_of_lookup_2. }
  destruct slot; simpl in Htype; unfold resolved_as_default, same_request,
    same_optional_request.
  - unfold _load_processor, dict_get. by rewrite Htype.
  - unfold _load_poster, dict_get. by rewrite Htype, (Hparams _ eq_refl).
  - unfold _load_scorer, dict_get. by rewrite Htype, (Hparams _ eq_refl).
  - unfold _load_score_modifier, _build_score_modifier, dict_get.
    rewrite Htype, (Hparams _ eq_refl).
    by destruct (score_modifier_type params).
  - unfold _load_scraper, dict_get. by rewrite Htype, (Hparams _ eq_refl).
  - unfold _load_restriction, _build_restriction, dict_get.
    rewrite Htype, (Hparams _ eq_refl).
    by destruct (restriction_type params).
Qed.

End LifecycleFacts.

(** *** The pipeline on the sample face *)

Section PipelineWitnesses.
Import Base36 Sample MoreSample.

Lemma translation_failure_skips_item_witness :
  exists emitted σ',
    drain (scrap state None None None idle) = (emitted, Ok tt, σ')
    /\ emitted
       = map (fun s => (sample_id s, snd s, sample_score s))
           ([submission_of "a1" "first"] ++ [submission_of "a3" "third"])
    /\ length emitted = 2%nat
    /\ readers σ' = 0%nat.
Proof.
  apply (translation_failure_skips_item state None None None
           [submission_of "a1" "first"] (submission_of "a2" "")
           [submission_of "a3" "third"]
           sample_id snd sample_score
           (Exception "ValueError" "submission without text")).
  - reflexivity.
  - intros s Hs. repeat (apply elem_of_cons in Hs as [->|Hs]);
      [reflexivity..|by apply elem_of_nil in Hs].
  - intros s Hs σ. repeat (apply elem_of_cons in Hs as [->|Hs]);
      [reflexivity..|by apply elem_of_nil in Hs].
  - intros s Hs σ. repeat (apply elem_of_cons in Hs as [->|Hs]);
      [reflexivity..|by apply elem_of_nil in Hs].
  - intros σ. reflexivity.
  - reflexivity.
  - simpl. done.
Defined.

(** The modifier has no score for the second submission: the export ends
    there, after the triple of the first. *)
Lemma scoring_failure_aborts_stream_witness :
  exists σ',
    drain (scrap moderated_state None None None idle)
    = ([triple_a1], Raise (Exception "LookupError" "banned submission"), σ')
    /\ readers σ' = 0%nat.
Proof.
  apply (scoring_failure_aborts_stream moderated_state None None None
           [submission_of "a1" "first"] (submission_of "a2" "banned")
           [submission_of "a3" "third"]
           [Emits triple_a1] (mkUUID 362)
           (Exception "LookupError" "banned submission")).
  - reflexivity.
  - apply (run_emit moderated_state); [|apply run_nil].
    repeat split; intros σ; reflexivity.
  - reflexivity.
  - reflexivity.
  - right. exists moderating_modifier, 6.
    repeat split; intros w; reflexivity.
  - simpl. done.
Defined.

(** The same with a scorer that raises: the second submission of [hot]
    has lost its score. *)
Example scorer_failure_on_hot :
  (drain (scrap hot_state None None None idle)).1
  = ([triple_a1], Raise (Exception "RuntimeError" "no score")).
Proof. reflexivity. Qed.

Lemma run_frontpage :
  run state frontpage
    [Emits triple_a1; Skipped; Emits triple_a3].
Proof.
  apply (run_emit state); [repeat split; intros σ; reflexivity|].
  apply (run_skip state).
  { exists (mkUUID 362), 0,
      (Exception "ValueError" "submission without text").
    repeat split; intros σ; reflexivity. }
  apply (run_emit state); [repeat split; intros σ; reflexivity|apply run_nil].
Qed.

Lemma limit_bounds_export_witness :
  exists emitted r σ',
    drain (scrap state (Some 1) None None idle) = (emitted, r, σ')
    /\ emitted
       = firstn (Z.to_nat 1)
           (emitted_of
              [Emits triple_a1; Skipped;
               Emits triple_a3])
    /\ (length emitted <= Z.to_nat 1)%nat
    /\ (length emitted
        <= length (List.filter is_emitted
                     [Emits triple_a1; Skipped;
                      Emits triple_a3]))%nat
    /\ length emitted
       = Nat.min (Z.to_nat 1)
           (length (emitted_of
                      [Emits triple_a1; Skipped;
                       Emits triple_a3]))
    /\ exists kept,
         kept `sublist_of` frontpage
         /\ Forall2 (fun s t => behaves state s (Emits t)) kept emitted.
Proof.
  apply (limit_bounds_export state 1 None None
           [Emits triple_a1; Skipped;
            Emits triple_a3]).
  apply run_frontpage.
Defined.

Lemma scrap_yields_inside_read_lock_witness :
  (exists σ1 resume close,
      scrap state None None None idle = Yielded triple_a1 σ1 resume close)
  /\ readers (gen_sigma (scrap state None None None idle))
     = S (readers idle)
  /\ readers (aclose (scrap state None None None idle)) = readers idle.
Proof.
  apply (scrap_yields_inside_read_lock state None None None
           (submission_of "a1" "first")
           [submission_of "a2" ""; submission_of "a3" "third"]
           triple_a1).
  - reflexivity.
  - repeat split; intros σ; reflexivity.
  - simpl. done.
Defined.

(** The read locks held along the export of the sample front page: one
    while the caller holds the first triple, one while it holds the
    second, none once the stream has ended. *)
Example read_locks_along_the_stream :
  let g := scrap state None None None idle in
  readers (gen_sigma g) = 1%nat
  /\ readers (gen_sigma (advance 1 g)) = 1%nat
  /\ readers (gen_sigma (advance 2 g)) = 0%nat.
Proof. repeat split; reflexivity. Qed.

End PipelineWitnesses.

(** *** The facade and the lifecycle on the sample face *)

Section FaceWitnesses.
Import Base36 Sample.

Lemma restriction_veto_rejects_witness :
  post state "" idle
  = (Raise (ValueError "Post is not allowed to be posted."),
     mkSigma [] (readers idle) (writers idle)
       (calls idle ++ [ProcessorToInternal; RestrictionCheck]))
  /\ PosterPost ∉ [ProcessorToInternal; RestrictionCheck].
Proof.
  apply (restriction_veto_rejects state non_empty_restriction "" "" idle
           [] []); reflexivity.
Defined.

Lemma post_returns_identifier_witness :
  exists σ',
    post state "hello" idle
    = (Ok (mkUUID 729, Some "https://redd.it/k9"), σ')
    /\ int_base36 "k9" = Ok 729
    /\ world σ' = ["submitted"]
    /\ readers σ' = readers idle.
Proof.
  apply (post_returns_identifier state submit "hello" "hello"
           (mkNativeItem "k9" (Some "https://redd.it/k9")) (mkUUID 729)
           idle [] [] ["submitted"]); reflexivity.
Defined.

Lemma cleanup_releases_slots_then_client_witness :
  exists σ1 σ2,
    cleanup state idle = (Ok tt, σ1)
    /\ run_all (map snd (cleanup_steps state)) (world idle)
       = (Ok tt, world σ1)
    /\ calls σ1 = calls idle ++ cleanup_calls state
    /\ cleanup state σ1 = (Ok tt, σ2)
    /\ run_all (map snd (cleanup_steps state)) (world σ1)
       = (Ok tt, world σ2)
    /\ calls σ2 = calls σ1 ++ cleanup_calls state
    /\ writers σ2 = writers idle.
Proof.
  apply (cleanup_releases_slots_then_client state).
  - repeat constructor. intros w. eexists. reflexivity.
  - intros w. eexists. reflexivity.
Defined.

(** What the two calls leave of the sample face. *)
Example cleanup_twice_on_sample :
  world (cleanup state idle).2 = ["processor cleaned"; "client closed"]
  /\ world (cleanup state (cleanup state idle).2).2
     = ["processor cleaned"; "client closed";
        "processor cleaned"; "client closed"].
Proof. split; reflexivity. Qed.

(** With a scorer whose cleanup releases a resource it owns, the first
    [cleanup] succeeds and the second one raises. *)
Lemma cleanup_twice_fails :
  (cleanup pooled_state idle).1 = Ok tt
  /\ (cleanup pooled_state (cleanup pooled_state idle).2).1
     = Raise (Exception "RuntimeError" "pool already released").
Proof. split; reflexivity. Qed.

Lemma load_falls_back_to_configuration_witness :
  resolved_as_default "textOnly" ScoreModifierSlot ["saved"] ∅ params.
Proof.
  apply (load_falls_back_to_configuration "textOnly" ScoreModifierSlot
           ["saved"] ∅ params).
  intros key _. apply lookup_empty.
Defined.

End FaceWitnesses.

(** *** Saving and loading on the disk *)

Section ArchiveWitnesses.
Import Base36 Archive.






End ArchiveWitnesses.

(** * More properties *)

(** ** Identifiers *)

Section MoreBase36Facts.
Import Base36.

(** X2.  Two valid native ids with the same identifier are the same id:
    the conversion of [_fetch] never gives one identifier to two
    submissions. *)
Theorem identifier_of_injective (n1 n2 : string) (id : UUID) :
  valid_native_id n1 = true ->
  valid_native_id n2 = true ->
  identifier_of n1 = Ok id ->
  identifier_of n2 = Ok id ->
  n1 = n2.
Proof.
  intros H1 H2 Hid1 Hid2.
  destruct (valid_native_id_inv n1 H1) as (cs1 & -> & Hc1 & Hf1).
  destruct (valid_native_id_inv n2 H2) as (cs2 & -> & Hc2 & Hf2).
  rewrite identifier_of_canonical in Hid1, Hid2 by done.
  pose proof (native_id_of_canonical cs1 Hc1) as N1.
  pose proof (native_id_of_canonical cs2 Hc2) as N2.
  inversion Hid1 as [E1]. inversion Hid2 as [E2].
  rewrite E1 in N1. rewrite E2 in N2. rewrite N1 in N2. by inversion N2.
Qed.

Lemma identifier_of_injective_witness : "abc" = "abc".
Proof.
  apply (identifier_of_injective "abc" "abc" (mkUUID 13368));
    reflexivity.
Defined.

(** X3.  A zero in front of the digits does not count: a native id and
    the same id after a zero have one identifier, so that only ids
    without leading zero can be told apart by their identifier. *)
Theorem identifier_of_ignores_leading_zero (n : string) :
  n <> "" ->
  forallb is_native_digit (list_ascii_of_string n) = true ->
  identifier_of (String "0" n) = identifier_of n.
Proof.
  intros Hne Hall.
  rewrite <- (string_of_list_ascii_of_string n) in Hne |- *.
  set (cs := list_ascii_of_string n) in *.
  assert (Hcs : cs <> []) by (intros Hnil; rewrite Hnil in Hne; done).
  change (String "0" (string_of_list_ascii cs))
    with (string_of_list_ascii ("0"%char :: cs)).
  unfold identifier_of.
  rewrite (int_base36_native cs), (int_base36_native ("0"%char :: cs));
    done.
Qed.

Lemma identifier_of_ignores_leading_zero_witness :
  identifier_of "0abc" = identifier_of "abc".
Proof.
  apply (identifier_of_ignores_leading_zero "abc"); [done|reflexivity].
Defined.

Lemma identifier_round_trip_witness :
  exists n,
    native_id_of (mkUUID 13368) = Ok n
    /\ valid_native_id n = true
    /\ identifier_of n = Ok (mkUUID 13368).
Proof. apply (identifier_round_trip 13368). lia. Defined.

End MoreBase36Facts.

(** ** [post] and [score] *)

Section MoreFacadeFacts.
Context {E : Externals}.
Import Base36.

(** X5.  [post] stops at the first collaborator that raises (the
    processor, then the restriction if one is set, then the poster): it
    ends with that exception in the world that collaborator left, having
    called the collaborators up to it and none after it, so that a
    failing processor leaves the restriction and the poster uncalled and
    a failing restriction leaves the poster uncalled; the read lock is
    given back. *)
Theorem post_stops_at_first_failure (st : State) (content : Content)
  (σ : Sigma) (e : exn) (w' : W) (cs : list Call) :
  post_stops st content (world σ) e w' cs ->
  post st content σ
  = (Raise e, mkSigma w' (readers σ) (writers σ) (calls σ ++ cs)).
Proof.
  intros [(H1 & ->) | [(data & w1 & r & H1 & Hr & H2 & ->)
                      | (data & w1 & w2 & H1 & H2 & H3 & ->)]];
    unfold post, read_lock, bind, call, ret, raise; simpl; rewrite H1; simpl.
  - done.
  - rewrite Hr. simpl. rewrite H2. simpl. by rewrite <- app_assoc.
  - destruct (restriction st) as [r|]; simpl.
    + rewrite H2. simpl. rewrite H3. simpl. by rewrite <- !app_assoc.
    + subst w2. rewrite H3. simpl. by rewrite <- !app_assoc.
Qed.

(** X6.  [post] surfaces the failure of a collaborator unchanged, with
    the read lock given back: that of the processor, that of the
    restriction, that of the poster. *)
Theorem post_surfaces_failure (st : State) (content : Content) (σ : Sigma)
  (e : exn) :
  post_collaborator_fails st content (world σ) e ->
  (post st content σ).1 = Raise e
  /\ readers (post st content σ).2 = readers σ.
Proof.
  intros [(w1 & H1) | [(data & w1 & r & w2 & H1 & Hr & H2)
                      | (data & w1 & w2 & w3 & H1 & H2 & H3)]];
    unfold post, read_lock, bind, call, ret, raise; simpl; rewrite H1; simpl.
  - done.
  - rewrite Hr. simpl. rewrite H2. done.
  - destruct (restriction st) as [r|]; simpl.
    + rewrite H2. simpl. rewrite H3. done.
    + subst w2. rewrite H3. done.
Qed.

(** Every identifier has a native id: [base_repr] does not fail in base
    36. *)
Lemma native_id_of_total (id : UUID) : exists n, native_id_of id = Ok n.
Proof.
  unfold native_id_of, base_repr.
  change (36 <? 36) with false. change (36 <? 2) with false. cbv iota.
  eauto.
Qed.

(** X7.  [score] asks the client for the submission with the native id
    of the identifier, has the scorer score it and, when a modifier is
    set, has the modifier modify that score: it returns what the modifier
    returns, or the scorer's score when no modifier is set.  It stops at
    the first of the three that raises, with that exception; the world is
    the one the last collaborator it ran left, and the read lock is given
    back. *)
Theorem score_runs_scorer_then_modifier (st : State) (id : UUID)
  (n : string) (σ : Sigma) (r : result Score) (w' : W) (cs : list Call) :
  native_id_of id = Ok n ->
  score_path st n (world σ) r w' cs ->
  score st id σ
  = (r, mkSigma w' (readers σ) (writers σ) (calls σ ++ cs)).
Proof.
  intros Hn Hpath. unfold score, read_lock, bind at 1, lift. rewrite Hn.
  unfold score_submission, bind, call, ret. simpl.
  destruct Hpath as [e w1 Hc|s w1 e w2 Hc Hs|s w1 raw w2 Hc Hs Hm
                    |s w1 raw w2 m r w3 Hc Hs Hm Hmod];
    rewrite Hc; simpl; [done|rewrite Hs; simpl..].
  - by rewrite <- app_assoc.
  - rewrite Hm. simpl. by rewrite <- app_assoc.
  - rewrite Hm. simpl. rewrite Hmod. simpl. by rewrite <- !app_assoc.
Qed.

End MoreFacadeFacts.

(** ** [cleanup] that fails *)

Section MoreCleanupFacts.
Context {E : Externals}.

(** X8.  [cleanup] stops at the first of its operations that raises (the
    cleanups of the [Configurable] slot instances in slot order, then the
    closing of the client): it ends with that exception in the world that
    operation left, the operations after it are not run (the client is
    not closed when a slot cleanup raises), and the write lock is given
    back. *)
Theorem cleanup_stops_at_first_failure (st : State)
  (before : list (Call * Eff unit)) (c : Call) (failing : Eff unit)
  (after : list (Call * Eff unit)) (e : exn) (σ : Sigma) (w1 w2 : W) :
  cleanup_steps st = before ++ (c, failing) :: after ->
  run_all (map snd before) (world σ) = (Ok tt, w1) ->
  failing w1 = (Raise e, w2) ->
  cleanup st σ
  = (Raise e,
     mkSigma w2 (readers σ) (writers σ) (calls σ ++ map fst before ++ [c])).
Proof.
  intros Hsteps Hbefore Hfail.
  rewrite performs_cleanup, Hsteps.
  by rewrite (run_logged_fails before after c failing e _ w1 w2).
Qed.

End MoreCleanupFacts.

(** ** The scrap pipeline, whatever the collaborators do *)

Section MorePipelineFacts.
Context {E : Externals}.
Import Base36.

Lemma stream_keeps_take_loop {T} (ended suspended : Sigma -> Prop)
  (n : Z) (g : Gen T) :
  stream_keeps ended suspended g ->
  forall i, stream_keeps ended suspended (take_loop n i g).
Proof.
  induction g as [σ|e σ|item σ resume IH close]; intros Hg i;
    [done|done|].
  destruct Hg as [Hs Hnext]. simpl. split; [done|].
  intros σ' Hσ'. destruct (Hnext σ' Hσ') as [Hclose Hresume].
  split; [done|]. destruct (n - 1 <=? i); [done|]. by apply IH.
Qed.

Lemma stream_keeps_advance {T} (ended suspended : Sigma -> Prop)
  (k : nat) :
  forall g : Gen T,
    stream_keeps ended suspended g ->
    stream_keeps ended suspended (advance k g).
Proof.
  induction k as [|k IH]; intros g Hg; [by destruct g|].
  destruct g as [σ|e σ|item σ resume close]; [done|done|].
  destruct Hg as [Hs Hnext]. simpl. apply IH. by apply Hnext.
Qed.

Lemma stream_keeps_drain {T} (ended suspended : Sigma -> Prop) (g : Gen T) :
  stream_keeps ended suspended g -> ended (drain g).2.
Proof.
  induction g as [σ|e σ|item σ resume IH close]; intros Hg; [done|done|].
  destruct Hg as [Hs Hnext]. simpl.
  specialize (IH σ (proj2 (Hnext σ Hs))).
  by destruct (drain (resume σ)) as [[items r] σ'].
Qed.

Lemma fetch_keeps_lock (st : State) (items : list Submission) (r : nat) :
  forall σ, readers σ = r ->
    stream_keeps (fun s => readers s = r) (fun s => readers s = S r)
      (_fetch st items σ).
Proof.
  induction items as [|s rest IH]; intros σ Hσ; [done|].
  simpl. unfold bind at 1, lift at 1.
  destruct (identifier_of (submission_id s)) as [id|e]; [|done].
  unfold bind at 1.
  destruct (lock_neutral_score_submission st s (acquire_read σ)) as [Hr _].
  destruct (score_submission st s (acquire_read σ)) as [[v|e] σ1];
    simpl in Hr; [|by simpl; rewrite Hr].
  unfold ret at 1.
  destruct (lock_neutral_translate st s σ1) as [Hr' _].
  destruct (translate st s σ1) as [[data|e] σ2]; simpl in Hr'.
  - simpl. split; [by rewrite Hr', Hr, Hσ|].
    intros σ' Hσ'. split; [by simpl; rewrite Hσ'|].
    apply IH. by simpl; rewrite Hσ'.
  - destruct (is_Exception e).
    + apply IH. by simpl; rewrite Hr', Hr.
    + by simpl; rewrite Hr', Hr.
Qed.

Lemma scrap_keeps (st : State) (limit : option Z)
  (before after : option Datetime) (ended suspended : Sigma -> Prop)
  (σ : Sigma) :
  ended (release_read (acquire_read σ)) ->
  (forall items,
     stream_keeps ended suspended
       (_fetch st items (release_read (acquire_read σ)))) ->
  stream_keeps ended suspended (scrap st limit before after σ).
Proof.
  intros Hend Hfetch. unfold scrap. destruct limit as [n|]; [|done].
  unfold take. destruct (n <=? 0); [done|].
  by apply stream_keeps_take_loop.
Qed.

(** X9.  Whatever the strategies do, an export holds exactly one read
    lock more than when it started while it is suspended at a triple, and
    none more when it has ended; closing it at any point gives the lock
    back.  This holds along the whole stream, also when the world changes
    while the caller holds a triple. *)
Theorem scrap_lock_invariant (st : State) (limit : option Z)
  (before after : option Datetime) (σ : Sigma) :
  stream_keeps (fun s => readers s = readers σ)
    (fun s => readers s = S (readers σ))
    (scrap st limit before after σ)
  /\ forall k,
       let g := advance k (scrap st limit before after σ) in
       readers (gen_sigma g)
       = (if is_suspended g then S (readers σ) else readers σ)
       /\ readers (aclose g) = readers σ.
Proof.
  assert (Hinv : stream_keeps (fun s => readers s = readers σ)
                   (fun s => readers s = S (readers σ))
                   (scrap st limit before after σ)).
  { apply scrap_keeps; [done|]. intros items. by apply fetch_keeps_lock. }
  split; [done|]. intros k.
  pose proof (stream_keeps_advance _ _ k _ Hinv) as Hk. simpl.
  destruct (advance k (scrap st limit before after σ))
    as [σ1|e σ1|item σ1 resume close]; simpl in *; [done|done|].
  destruct Hk as [Hs Hnext]. split; [done|]. by apply Hnext.
Qed.

Lemma score_submission_reads (st : State) (s : Submission) (σ : Sigma) :
  export_reads_only st -> world (score_submission st s σ).2 = world σ.
Proof.
  intros (Hs & Hm & _). unfold score_submission, bind, call, ret.
  pose proof (Hs s (world σ)) as H1.
  destruct (scorer_score (ops (scorer st)) s (world σ)) as [[v|e] w1];
    simpl in *; [|done].
  destruct (score_modifier st) as [m|] eqn:Hmod; simpl; [|done].
  pose proof (Hm m eq_refl s v w1) as H2.
  destruct (modify (ops m) s v w1) as [r w2]. simpl in *. congruence.
Qed.

Lemma translate_reads (st : State) (s : Submission) (σ : Sigma) :
  export_reads_only st -> world (translate st s σ).2 = world σ.
Proof.
  intros (_ & _ & Hp & Ht). unfold translate, bind, call.
  pose proof (Hp s (world σ)) as H1.
  destruct (post_from_submission s (world σ)) as [[d|e] w1];
    simpl in *; [|done].
  pose proof (Ht d w1) as H2.
  destruct (to_external (ops (processor st)) d w1) as [r w2].
  simpl in *. congruence.
Qed.

Lemma fetch_keeps_world (st : State) (items : list Submission) (w : W) :
  export_reads_only st ->
  forall σ, world σ = w ->
    stream_keeps (fun s => world s = w) (fun s => world s = w)
      (_fetch st items σ).
Proof.
  intros Hro. induction items as [|s rest IH]; intros σ Hσ; [done|].
  simpl. unfold bind at 1, lift at 1.
  destruct (identifier_of (submission_id s)) as [id|e]; [|done].
  unfold bind at 1.
  pose proof (score_submission_reads st s (acquire_read σ) Hro) as H1.
  destruct (score_submission st s (acquire_read σ)) as [[v|e] σ1];
    simpl in H1; [|simpl; congruence].
  unfold ret at 1.
  pose proof (translate_reads st s σ1 Hro) as H2.
  destruct (translate st s σ1) as [[data|e] σ2]; simpl in H2.
  - simpl. split; [congruence|]. intros σ' Hσ'. split; [done|].
    by apply IH.
  - destruct (is_Exception e); [apply IH|]; simpl; congruence.
Qed.

(** X10.  An export changes the world only through the scorer, the score
    modifier, [Post.from_submission] and the processor's [to_external]
    (the submissions are the sequence the scraper gave): when these four
    leave the world as they find it, the world is unchanged at every
    triple, at the end of the export and when it is closed early, so that
    nothing was posted and no client closed. *)
Theorem scrap_only_reads (st : State) (limit : option Z)
  (before after : option Datetime) (σ : Sigma) :
  export_reads_only st ->
  world (drain (scrap st limit before after σ)).2 = world σ
  /\ forall k,
       world (gen_sigma (advance k (scrap st limit before after σ)))
       = world σ
       /\ world (aclose (advance k (scrap st limit before after σ)))
          = world σ.
Proof.
  intros Hro.
  assert (Hinv : stream_keeps (fun s => world s = world σ)
                   (fun s => world s = world σ)
                   (scrap st limit before after σ)).
  { apply scrap_keeps; [done|]. intros items. by apply fetch_keeps_world. }
  split; [by apply stream_keeps_drain in Hinv|]. intros k.
  pose proof (stream_keeps_advance _ _ k _ Hinv) as Hk.
  destruct (advance k (scrap st limit before after σ))
    as [σ1|e σ1|item σ1 resume close]; simpl in *; [done|done|].
  destruct Hk as [Hs Hnext]. split; [done|]. by apply Hnext.
Qed.

Lemma drain_take_loop_firstn {T} (n : Z) (g : Gen T) :
  forall i, 0 <= i < n ->
    (drain (take_loop n i g)).1.1
    = firstn (Z.to_nat (n - i)) (drain g).1.1.
Proof.
  induction g as [σ|e σ|item σ resume IH close]; intros i Hi;
    [by rewrite firstn_nil..|].
  simpl. destruct (n - 1 <=? i) eqn:Hlast.
  - apply Z.leb_le in Hlast. replace (Z.to_nat (n - i)) with 1%nat by lia.
    by destruct (drain (resume σ)) as [[items r] σ'].
  - apply Z.leb_gt in Hlast. specialize (IH σ (i + 1) ltac:(lia)).
    replace (Z.to_nat (n - i)) with (S (Z.to_nat (n - (i + 1)))) by lia.
    destruct (drain (take_loop n (i + 1) (resume σ))) as [[items1 r1] σ1].
    destruct (drain (resume σ)) as [[items r] σ']. simpl in *.
    by rewrite IH.
Qed.

Lemma drain_fetch_source_order (st : State) (items : list Submission) :
  forall σ, exists kept,
    kept `sublist_of` items
    /\ Forall2 identified_by kept (drain (_fetch st items σ)).1.1.
Proof.
  induction items as [|s rest IH]; intros σ.
  - exists []. split; [done|constructor].
  - simpl. unfold bind at 1, lift at 1.
    destruct (identifier_of (submission_id s)) as [id|e] eqn:Hid;
      [|exists []; split; [apply sublist_nil_l|constructor]].
    unfold bind at 1.
    destruct (score_submission st s (acquire_read σ)) as [[v|e] σ1];
      [|exists []; split; [apply sublist_nil_l|constructor]].
    unfold ret at 1.
    destruct (translate st s σ1) as [[data|e] σ2].
    + simpl. destruct (IH (release_read σ2)) as (kept & Hsub & Hall).
      destruct (drain (_fetch st rest (release_read σ2)))
        as [[items1 r1] σ3]. simpl in *.
      exists (s :: kept). split; [by apply sublist_skip|].
      by constructor.
    + destruct (is_Exception e).
      * destruct (IH (release_read σ2)) as (kept & Hsub & Hall).
        exists kept. split; [by apply sublist_cons|done].
      * exists []. split; [apply sublist_nil_l|constructor].
Qed.

(** X11.  Whatever the strategies do, the triples that an export emits
    are those of a subsequence of the scraper's submissions, in their
    order, each under the identifier of its submission: no more triples
    than submissions, and no more than the limit. *)
Theorem scrap_emits_in_source_order (st : State) (limit : option Z)
  (before after : option Datetime) (σ : Sigma) :
  let items := scraper_scrap (ops (scraper st)) (client st) before after in
  let emitted := (drain (scrap st limit before after σ)).1.1 in
  (exists kept,
      kept `sublist_of` items /\ Forall2 identified_by kept emitted)
  /\ (length emitted <= length items)%nat
  /\ match limit with
     | Some n => (length emitted <= Z.to_nat n)%nat
     | None => True
     end.
Proof.
  intros items emitted.
  assert (H : (exists kept,
                  kept `sublist_of` items
                  /\ Forall2 identified_by kept emitted)
              /\ match limit with
                 | Some n => (length emitted <= Z.to_nat n)%nat
                 | None => True
                 end).
  { unfold emitted, scrap. fold items.
    set (σ0 := release_read (acquire_read σ)).
    destruct (drain_fetch_source_order st items σ0) as (kept & Hsub & Hall).
    destruct limit as [n|]; [|by eauto].
    unfold take. destruct (n <=? 0) eqn:Hn.
    - apply Z.leb_le in Hn. simpl. split; [|lia].
      exists []. split; [apply sublist_nil_l|constructor].
    - apply Z.leb_gt in Hn.
      rewrite drain_take_loop_firstn by lia. rewrite Z.sub_0_r. split.
      + exists (firstn (Z.to_nat n) kept). split.
        * etrans; [apply sublist_take|done].
        * by apply Forall2_take.
      + rewrite length_firstn. lia. }
  destruct H as [(kept & Hsub & Hall) Hlimit].
  split; [by eauto|]. split; [|done].
  rewrite <- (Forall2_length _ _ _ Hall). by apply sublist_length.
Qed.

(** One round of [_fetch], with the state it leaves named before the
    rest of the sequence is. *)
Lemma _fetch_emits_any_rest (st : State) (s : Submission) (t : Triple)
  (σ : Sigma) :
  behaves st s (Emits t) ->
  exists σ1, forall rest,
    _fetch st (s :: rest) σ
    = Yielded t σ1 (fun σ' => _fetch st rest (release_read σ')) release_read.
Proof.
  destruct t as [[id data] score]. intros (Hid & Hscore & Htr).
  specialize (Hscore (acquire_read σ)).
  destruct (score_submission st s (acquire_read σ)) as [r σ1] eqn:Hs.
  simpl in Hscore. subst r. specialize (Htr σ1).
  destruct (translate st s σ1) as [r σ2] eqn:Ht. simpl in Htr. subst r.
  exists σ2. intros rest.
  simpl. unfold bind at 1. unfold lift at 1. rewrite Hid. unfold bind at 1.
  rewrite Hs. unfold ret at 1. by rewrite Ht.
Qed.

Lemma _fetch_skips_any_rest (st : State) (s : Submission) (σ : Sigma) :
  behaves st s Skipped ->
  exists σ1, forall rest, _fetch st (s :: rest) σ = _fetch st rest σ1.
Proof.
  intros (id & score & e & Hid & Hscore & Htr & He).
  specialize (Hscore (acquire_read σ)).
  destruct (score_submission st s (acquire_read σ)) as [r σ1] eqn:Hs.
  simpl in Hscore. subst r. specialize (Htr σ1).
  destruct (translate st s σ1) as [r σ2] eqn:Ht. simpl in Htr. subst r.
  exists (release_read σ2). intros rest.
  simpl. unfold bind at 1. unfold lift at 1. rewrite Hid. unfold bind at 1.
  rewrite Hs. unfold ret at 1. by rewrite Ht, He.
Qed.

Lemma take_loop_leaves_rest (st : State) (pre post : list Submission)
  (bs : list Behaviour) (n : Z) :
  run st pre bs ->
  forall i σ, 0 <= i < n ->
    n - i <= Z.of_nat (length (emitted_of bs)) ->
    drain (take_loop n i (_fetch st (pre ++ post) σ))
    = drain (take_loop n i (_fetch st pre σ)).
Proof.
  induction 1 as [|s rest t bs Hb _ IH|s rest bs Hb _ IH|s rest e Hb];
    intros i σ Hi Hn; simpl in Hn; [lia| | |lia].
  - destruct (_fetch_emits_any_rest st s t σ Hb) as (σ1 & Hf).
    rewrite <- app_comm_cons, !Hf. simpl.
    destruct (n - 1 <=? i) eqn:Hlast; [done|].
    apply Z.leb_gt in Hlast. by rewrite IH by lia.
  - destruct (_fetch_skips_any_rest st s σ Hb) as (σ1 & Hf).
    rewrite <- app_comm_cons, !Hf. by apply IH.
Qed.

(** X12.  Under a limit [n], the export stops asking once it has emitted
    [n] triples: when the submissions [pre] already give [n] triples, the
    export over [pre ++ post] ends as the export over [pre] alone does,
    with the same triples, the same world and the same calls, so that no
    submission of [post] is scored or translated.  A limit of zero or
    less looks at no submission. *)
Theorem limit_leaves_rest_untouched (st : State) (n : Z)
  (before after : option Datetime) (pre post : list Submission)
  (bs : list Behaviour) :
  scraper_scrap (ops (scraper st)) (client st) before after = pre ++ post ->
  run st pre bs ->
  n <= Z.of_nat (length (emitted_of bs)) ->
  forall σ,
    drain (scrap st (Some n) before after σ)
    = drain (take (_fetch st pre) n (release_read (acquire_read σ))).
Proof.
  intros Hsrc Hrun Hn σ. unfold scrap. rewrite Hsrc. unfold take.
  destruct (n <=? 0) eqn:H0; [done|]. apply Z.leb_gt in H0.
  by apply (take_loop_leaves_rest st pre post bs); [|lia|lia].
Qed.

(** X13.  A submission that aborts the stream (its id does not convert,
    its scoring raises, or its translation raises outside [Exception], as
    a cancellation does) ends the export with that exception when the
    pipeline gets to it: the triples emitted are those of the submissions
    before it, and the read lock is given back. *)
Theorem aborting_submission_ends_stream (st : State) (limit : option Z)
  (before after : option Datetime)
  (pre : list Submission) (k : Submission) (post : list Submission)
  (bs : list Behaviour) (e : exn) :
  scraper_scrap (ops (scraper st)) (client st) before after
  = pre ++ k :: post ->
  run st pre bs ->
  ending_of bs = Ok tt ->
  behaves st k (Aborts e) ->
  match limit with
  | None => True
  | Some n => Z.of_nat (length (emitted_of bs)) < n
  end ->
  forall σ, exists σ',
    drain (scrap st limit before after σ) = (emitted_of bs, Raise e, σ')
    /\ readers σ' = readers σ.
Proof.
  intros Hsrc Hrun Hend Hk Hlimit σ.
  destruct (run_app_abort st pre bs k post e Hrun Hend Hk)
    as (Hrun' & Hem & Hen).
  rewrite <- Hsrc in Hrun'.
  destruct (drain_scrap st limit before after _ Hrun' σ)
    as (σ' & Hd & Hr & _).
  exists σ'. split; [|done]. rewrite Hd. unfold export_of.
  rewrite Hem, Hen. destruct limit as [n|]; [|done]. simpl.
  rewrite firstn_all2 by lia.
  destruct (n <=? Z.of_nat (length (emitted_of bs))) eqn:Hc;
    [apply Z.leb_le in Hc; lia | done].
Qed.

End MorePipelineFacts.

(** ** Building, saving and loading *)

Section MoreLifecycleFacts.
Context {E : Externals} {K : SDK}.
Variable post_type : string.

Lemma ok_inv {S A} (m : SE S A) (s : S) :
  is_ok (m s).1 = true -> exists a s', m s = (Ok a, s').
Proof. destruct (m s) as [[a|e] s']; [eauto|done]. Qed.

Lemma build_optional_category {Ops} (base : Base Ops) (c : option string)
  (mapping : ParamsMap) (w w' : W) (x : option (Strategy Ops)) :
  builder_honours_category ->
  match c with
  | None => ret None
  | Some c =>
      x <- build_generic base (VStr c) (default ∅ (mapping !! c)) ;;
      ret (Some x)
  end w = (Ok x, w') ->
  category <$> x = c.
Proof.
  intros Hbuilder H. destruct c as [c|].
  - apply bind_ok in H as (i & w1 & Hi & H). apply Hbuilder in Hi.
    unfold ret in H. inversion H. simpl. by rewrite Hi.
  - unfold ret in H. by inversion H.
Qed.

(** X14.  A state built from the configuration alone has, in every slot,
    an instance of the category the configuration names (the processor of
    the category of the face), no instance in an optional slot the
    configuration leaves out, the five parameter mappings of the
    configuration, and a client with the credentials of the
    configuration.  The SDK builder is supposed to return an instance of
    the category it is asked for. *)
Theorem default_build_follows_configuration (params : Params)
  (w w' : W) (st : State) :
  builder_honours_category ->
  _build_default_state post_type params w = (Ok st, w') ->
  (category (processor st) = post_type
   /\ category (poster st) = poster_type params
   /\ category (scorer st) = scorer_type params
   /\ category <$> score_modifier st = score_modifier_type params
   /\ category (scraper st) = scraper_type params
   /\ category <$> restriction st = restriction_type params)
  /\ (posters_params st = VParams (params_posters_params params)
      /\ scorers_params st = VParams (params_scorers_params params)
      /\ score_modifiers_params st
         = VParams (params_score_modifiers_params params)
      /\ scrapers_params st = VParams (params_scrapers_params params)
      /\ restrictions_params st
         = VParams (params_restrictions_params params))
  /\ client st
     = mkReddit (client_id params) (client_secret params)
         (refresh_token params) (user_agent params)
         (ratelimit_seconds params).
Proof.
  intros Hbuilder Hbuild. unfold _build_default_state in Hbuild.
  apply bind_ok in Hbuild as (cl & wa & Hcl & Hbuild).
  apply bind_ok in Hbuild as (sub & wb & _ & Hbuild).
  apply bind_ok in Hbuild as (x1 & wc & H1 & Hbuild).
  apply bind_ok in Hbuild as (x2 & wd & H2 & Hbuild).
  apply bind_ok in Hbuild as (x3 & we & H3 & Hbuild).
  apply bind_ok in Hbuild as (x4 & wf & H4 & Hbuild).
  apply bind_ok in Hbuild as (x5 & wg & H5 & Hbuild).
  apply bind_ok in Hbuild as (x6 & wh & H6 & Hbuild).
  unfold ret in Hbuild. inversion Hbuild; subst st; clear Hbuild. simpl.
  unfold _build_client, ret in Hcl. inversion Hcl; subst cl wa; clear Hcl.
  split; [|done].
  apply Hbuilder in H1, H2, H3, H5.
  apply build_optional_category in H4, H6; done.
Qed.

(** X15.  On a state built from the configuration alone, the parameters
    that the face offers for a category of a slot are the entries of the
    configuration for that category, none when it has no entry: the
    lookup does not fail, for any category. *)
Theorem default_state_offers_configured_parameters (params : Params)
  (w w' : W) (st : State) (c : string) :
  _build_default_state post_type params w = (Ok st, w') ->
  PosterParameter_get_params st c
  = Ok (default ∅ (params_posters_params params !! c))
  /\ ScorerParameter_get_params st c
     = Ok (default ∅ (params_scorers_params params !! c))
  /\ ScoreModifierParameter_get_params st c
     = Ok (default ∅ (params_score_modifiers_params params !! c))
  /\ ScraperParameter_get_params st c
     = Ok (default ∅ (params_scrapers_params params !! c))
  /\ RestrictionParameter_get_params st c
     = Ok (default ∅ (params_restrictions_params params !! c)).
Proof.
  intros Hbuild. unfold _build_default_state in Hbuild.
  repeat (apply bind_ok in Hbuild as (? & ? & _ & Hbuild)).
  unfold ret in Hbuild. inversion Hbuild; subst st; clear Hbuild.
  repeat split; reflexivity.
Qed.

(** X16.  What the state dictionary says of a slot wins over the
    configuration: with the category [c] under the slot's type key and
    the mapping [m] as the slot's parameters (read from the dictionary,
    or from the configuration when the dictionary has none), the loader
    is asked for [c] with the entries of [m] for [c], and an optional
    slot whose category is [None] in the dictionary stays empty without
    the loader being asked, whatever the configuration selects. *)
Theorem manifest_overrides_configuration (slot : Slot) (directory : Path)
  (state_dict : StateDict) (params : Params)
  (c : option string) (m : ParamsMap) :
  state_dict !! type_key slot = Some (value_of_optional c) ->
  mapping_of slot state_dict params = VParams m ->
  loaded_as post_type slot directory state_dict params c m.
Proof.
  intros Htype Hmap.
  destruct slot; simpl in Htype, Hmap; unfold loaded_as.
  - unfold _load_processor, dict_get. by rewrite Htype.
  - unfold _load_poster. rewrite Hmap. unfold dict_get. rewrite Htype.
    by destruct c.
  - unfold _load_scorer. rewrite Hmap. unfold dict_get. rewrite Htype.
    by destruct c.
  - unfold _load_score_modifier. rewrite Htype, Hmap. by destruct c.
  - unfold _load_scraper. rewrite Hmap. unfold dict_get. rewrite Htype.
    by destruct c.
  - unfold _load_restriction. rewrite Htype, Hmap. by destruct c.
Qed.

Lemma load_mandatory_rejects {Ops} (directory : Path) (base : Base Ops)
  (category v : Value) (default : Eff (Strategy Ops)) (w : W) :
  (forall m, v <> VParams m) ->
  is_ok ((kwargs <- lift (get_kwargs v category) ;;
          load_generic id directory base category kwargs default) w).1
  = false.
Proof. intros Hv. destruct v as [| |m]; [done|done|by destruct (Hv m)]. Qed.

(** X17.  There is no fallback for a damaged entry: when the state
    dictionary gives the poster, the scorer or the scraper something else
    than a mapping as parameters ([None], a string), loading the state
    fails, whatever the configuration holds. *)
Theorem load_rejects_damaged_parameters (directory : Path) (params : Params)
  (state_dict : StateDict) (key : string) (v : Value) (w w1 : W) :
  load_state_dict directory w = (Ok state_dict, w1) ->
  key ∈ ["posters_params"; "scorers_params"; "scrapers_params"] ->
  state_dict !! key = Some v ->
  (forall m, v <> VParams m) ->
  is_ok (_load_saved_state post_type directory params w).1 = false.
Proof.
  intros Hread Hkey Hv Hbad. apply not_true_is_false. intros Hok.
  apply ok_inv in Hok as (st & w' & Hload).
  unfold _load_saved_state in Hload.
  apply bind_ok in Hload as (sd & w2 & Hsd & Hload).
  rewrite Hread in Hsd. inversion Hsd; subst sd w2; clear Hsd.
  apply bind_ok in Hload as (cl & wa & _ & Hload).
  apply bind_ok in Hload as (sub & wb & _ & Hload).
  apply bind_ok in Hload as (x1 & wc & _ & Hload).
  apply bind_ok in Hload as (x2 & wd & H2 & Hload).
  apply bind_ok in Hload as (x3 & we & H3 & Hload).
  apply bind_ok in Hload as (x4 & wf & _ & Hload).
  apply bind_ok in Hload as (x5 & wg & H5 & _).
  assert (Hno : forall {Ops} dir (base : Base Ops) cat dflt w0 x w0',
             (kwargs <- lift (get_kwargs v cat) ;;
              load_generic id dir base cat kwargs dflt) w0 = (Ok x, w0') ->
             False).
  { intros Ops dir base cat dflt w0 x w0' H.
    pose proof (load_mandatory_rejects dir base cat v dflt w0 Hbad) as Hr.
    by rewrite H in Hr. }
  repeat (apply elem_of_cons in Hkey as [->|Hkey]).
  - unfold _load_poster in H2. unfold dict_get in H2.
    rewrite Hv in H2. simpl in H2. by apply Hno in H2.
  - unfold _load_scorer in H3. unfold dict_get in H3.
    rewrite Hv in H3. simpl in H3. by apply Hno in H3.
  - unfold _load_scraper in H5. unfold dict_get in H5.
    rewrite Hv in H5. simpl in H5. by apply Hno in H5.
  - by apply elem_of_nil in Hkey.
Qed.

Lemma run_all_app (fs gs : list (Eff unit)) (w : W) :
  run_all (fs ++ gs) w = (run_all fs ;;; run_all gs) w.
Proof.
  revert w. induction fs as [|f fs IH]; intros w; [done|].
  simpl. unfold bind. destruct (f w) as [[[]|e] w1]; [|done].
  rewrite IH. done.
Qed.

Lemma run_all_save_of {Ops} (x : Strategy Ops) (directory : Path)
  (name : string) (k : Eff unit) (w : W) :
  (save_if_savable x directory name ;;; k) w
  = (run_all (save_of x directory name) ;;; k) w.
Proof.
  unfold save_if_savable, save_of. destruct (savable x) as [save|]; [|done].
  simpl. unfold bind, ret. by destruct (save (path_div directory name) w)
    as [[[]|e] w1].
Qed.

Lemma run_all_save_of_optional {Ops} (x : option (Strategy Ops))
  (directory : Path) (name : string) (k : Eff unit) (w : W) :
  (save_optional x directory name ;;; k) w
  = (run_all (save_of_optional x directory name) ;;; k) w.
Proof.
  destruct x as [i|]; [apply run_all_save_of|done].
Qed.

Lemma bind_run_all_app (fs gs : list (Eff unit)) (k : Eff unit) (w : W) :
  (run_all fs ;;; (run_all gs ;;; k)) w = (run_all (fs ++ gs) ;;; k) w.
Proof.
  unfold bind. rewrite run_all_app. unfold bind.
  by destruct (run_all fs w) as [[[]|e] w1].
Qed.

Lemma bind_congr {A B} (m : Eff A) (k k' : A -> Eff B) (w : W) :
  (forall a w1, k a w1 = k' a w1) -> bind m k w = bind m k' w.
Proof. intros H. unfold bind. by destruct (m w) as [[a|e] w1]. Qed.

Lemma save_step {Ops} (x : Strategy Ops) (directory : Path) (name : string)
  (rest : list (Eff unit)) (k k' : Eff unit) (w : W) :
  (forall w1, k w1 = (run_all rest ;;; k') w1) ->
  (save_if_savable x directory name ;;; k) w
  = (run_all (save_of x directory name ++ rest) ;;; k') w.
Proof.
  intros Hk. rewrite <- bind_run_all_app, run_all_save_of.
  apply bind_congr. intros _ w1. apply Hk.
Qed.

Lemma save_optional_step {Ops} (x : option (Strategy Ops))
  (directory : Path) (name : string)
  (rest : list (Eff unit)) (k k' : Eff unit) (w : W) :
  (forall w1, k w1 = (run_all rest ;;; k') w1) ->
  (save_optional x directory name ;;; k) w
  = (run_all (save_of_optional x directory name ++ rest) ;;; k') w.
Proof.
  intros Hk. rewrite <- bind_run_all_app, run_all_save_of_optional.
  apply bind_congr. intros _ w1. apply Hk.
Qed.

(** [_save_state] saves the slot instances that are [Savable], then
    writes the state dictionary. *)
Lemma save_state_as_slot_saves (st : State) (directory : Path) (w : W) :
  _save_state st directory w
  = (run_all (slot_saves st directory) ;;;
     save_state_dict (_create_state_dict st) directory) w.
Proof.
  unfold _save_state, slot_saves, _save_processor, _save_poster,
    _save_scorer, _save_score_modifier, _save_scraper, _save_restriction.
  apply save_step. intros wa.
  apply save_step. intros wb.
  apply save_step. intros wc.
  apply save_optional_step. intros wd.
  apply save_step. intros we.
  apply run_all_save_of_optional.
Qed.

(** X18.  When every [Savable] slot instance is saved, [_save_state]
    ends as the writing of the state dictionary does, in the world the
    saves left; a state none of whose instances is [Savable] only writes
    the state dictionary. *)
Theorem save_writes_manifest_last (st : State) (directory : Path)
  (w w1 : W) :
  run_all (slot_saves st directory) w = (Ok tt, w1) ->
  _save_state st directory w
  = save_state_dict (_create_state_dict st) directory w1.
Proof.
  intros Hsaves. rewrite save_state_as_slot_saves.
  unfold bind. by rewrite Hsaves.
Qed.

(** X19.  [_save_state] saves the [Savable] slot instances in slot
    order, each under its own sub-directory, and writes the state
    dictionary last.  When the save of an instance raises, that exception
    is the outcome: the instances after it are not saved and the state
    dictionary is not written, so that the directory keeps the manifest
    it had. *)
Theorem save_failure_leaves_manifest_unwritten (st : State)
  (directory : Path) (before : list (Eff unit)) (failing : Eff unit)
  (after : list (Eff unit)) (e : exn) (w w1 w2 : W) :
  slot_saves st directory = before ++ failing :: after ->
  run_all before w = (Ok tt, w1) ->
  failing w1 = (Raise e, w2) ->
  _save_state st directory w = (Raise e, w2).
Proof.
  intros Hslots Hbefore Hfail.
  rewrite save_state_as_slot_saves, Hslots.
  unfold bind at 1. rewrite run_all_app. unfold bind at 1.
  rewrite Hbefore. simpl. unfold bind at 1. by rewrite Hfail.
Qed.

End MoreLifecycleFacts.

(** ** More of the sample face *)

Section MoreWitnesses.
Import Base36 Sample MoreSample.

Lemma score_fetches_native_submission_witness :
  score state (mkUUID 13368) idle
  = read_lock
      (submission <- call ClientSubmission
                       (reddit_submission (client state) "abc") ;;
       score_submission state submission) idle.
Proof.
  apply (score_fetches_native_submission state "abc" (mkUUID 13368) idle);
    reflexivity.
Defined.

(** The strict processor has no internal form for the empty post. *)
Lemma post_surfaces_failure_witness :
  (post strict_state "" idle).1
  = Raise (Exception "ValueError" "unsupported content")
  /\ readers (post strict_state "" idle).2 = readers idle.
Proof.
  apply (post_surfaces_failure strict_state "" idle
           (Exception "ValueError" "unsupported content")).
  left. exists []. reflexivity.
Defined.

(** With a limit of one, the export of the sample front page ends after
    the first submission. *)
Lemma limit_leaves_rest_untouched_witness :
  drain (scrap state (Some 1) None None idle)
  = drain (take (_fetch state [submission_of "a1" "first"]) 1
             (release_read (acquire_read idle))).
Proof.
  apply (limit_leaves_rest_untouched state 1 None None
           [submission_of "a1" "first"]
           [submission_of "a2" ""; submission_of "a3" "third"]
           [Emits triple_a1]).
  - reflexivity.
  - apply (run_emit state); [|apply run_nil].
    repeat split; intros σ; reflexivity.
  - simpl. lia.
Defined.

(** The translation of the third submission is cancelled. *)
Lemma aborting_submission_ends_stream_witness :
  exists σ',
    drain (scrap cancelled_state None None None idle)
    = (emitted_of [Emits triple_a1; Skipped],
       Raise (BaseException "CancelledError"), σ')
    /\ readers σ' = readers idle.
Proof.
  apply (aborting_submission_ends_stream cancelled_state None None None
           [submission_of "a1" "first"; submission_of "a2" ""]
           (submission_of "a3" "third") []
           [Emits triple_a1; Skipped]
           (BaseException "CancelledError")).
  - reflexivity.
  - apply (run_emit cancelled_state);
      [repeat split; intros σ; reflexivity|].
    apply (run_skip cancelled_state); [|apply run_nil].
    exists (mkUUID 362), 0,
      (Exception "ValueError" "submission without text").
    repeat split; intros σ; reflexivity.
  - reflexivity.
  - right. right. exists (mkUUID 363), 5.
    repeat split; intros σ; reflexivity.
  - simpl. done.
Defined.

Lemma sample_builder_honours :
  builder_honours_category (K := sdk).
Proof.
  intros Ops base c kwargs w w' i H.
  simpl in H. unfold find_category in H.
  destruct (find (fun i => (category i =? c)%string) base) as [j|] eqn:Hf;
    [|done].
  apply find_some in Hf as [_ Hc]. apply String.eqb_eq in Hc.
  unfold ret in H. by inversion H; subst.
Qed.

Lemma default_build_follows_configuration_witness :
  (category (processor configured_state) = "textOnly"
   /\ category (poster configured_state) = poster_type params
   /\ category (scorer configured_state) = scorer_type params
   /\ category <$> score_modifier configured_state
      = score_modifier_type params
   /\ category (scraper configured_state) = scraper_type params
   /\ category <$> restriction configured_state = restriction_type params)
  /\ (posters_params configured_state
      = VParams (params_posters_params params)
      /\ scorers_params configured_state
         = VParams (params_scorers_params params)
      /\ score_modifiers_params configured_state
         = VParams (params_score_modifiers_params params)
      /\ scrapers_params configured_state
         = VParams (params_scrapers_params params)
      /\ restrictions_params configured_state
         = VParams (params_restrictions_params params))
  /\ client configured_state
     = mkReddit (client_id params) (client_secret params)
         (refresh_token params) (user_agent params)
         (ratelimit_seconds params).
Proof.
  apply (default_build_follows_configuration "textOnly" params [] []
           configured_state).
  - apply sample_builder_honours.
  - reflexivity.
Defined.

Lemma default_state_offers_configured_parameters_witness :
  PosterParameter_get_params configured_state "basic"
  = Ok (default ∅ (params_posters_params params !! "basic"))
  /\ ScorerParameter_get_params configured_state "basic"
     = Ok (default ∅ (params_scorers_params params !! "basic"))
  /\ ScoreModifierParameter_get_params configured_state "basic"
     = Ok (default ∅ (params_score_modifiers_params params !! "basic"))
  /\ ScraperParameter_get_params configured_state "basic"
     = Ok (default ∅ (params_scrapers_params params !! "basic"))
  /\ RestrictionParameter_get_params configured_state "basic"
     = Ok (default ∅ (params_restrictions_params params !! "basic")).
Proof.
  apply (default_state_offers_configured_parameters "textOnly" params
           [] [] configured_state "basic").
  reflexivity.
Defined.

(** The manifest of the sample state names the scorer ["relativeScore"]
    with a weight; the configuration selects ["pooled"]. *)
Lemma manifest_overrides_configuration_witness :
  loaded_as "textOnly" ScorerSlot ["saved"] (_create_state_dict state)
    params (Some "relativeScore")
    {["relativeScore" := {["weight" := 2]}]}.
Proof.
  apply (manifest_overrides_configuration "textOnly" ScorerSlot ["saved"]
           (_create_state_dict state) params (Some "relativeScore")
           {["relativeScore" := {["weight" := 2]}]});
    reflexivity.
Defined.

Lemma load_rejects_damaged_parameters_witness :
  is_ok (_load_saved_state (K := damaged_sdk) "textOnly" ["saved"]
           params []).1
  = false.
Proof.
  apply (load_rejects_damaged_parameters (K := damaged_sdk) "textOnly"
           ["saved"] params
           (<["scorers_params" := VNone]> (_create_state_dict state))
           "scorers_params" VNone [] []).
  - reflexivity.
  - apply elem_of_cons. right. apply elem_of_cons. by left.
  - reflexivity.
  - intros m Hm. discriminate Hm.
Defined.

Lemma save_writes_manifest_last_witness :
  _save_state archived_state ["saved"] []
  = save_state_dict (_create_state_dict archived_state) ["saved"]
      ["processor saved"; "scorer saved"].
Proof.
  apply (save_writes_manifest_last archived_state ["saved"] []
           ["processor saved"; "scorer saved"]).
  reflexivity.
Defined.

(** The poster finds the disk full: the scorer is not saved. *)
Lemma save_failure_leaves_manifest_unwritten_witness :
  _save_state saving_state ["saved"] []
  = (Raise (Exception "OSError" "No space left on device"),
     ["processor saved"; "poster save tried"]).
Proof.
  apply (save_failure_leaves_manifest_unwritten saving_state ["saved"]
           (save_of (processor saving_state) ["saved"] "processor")
           (fun w => (Raise (Exception "OSError" "No space left on device"),
                      w ++ ["poster save tried"]))
           (save_of (scorer saving_state) ["saved"] "scorer")
           (Exception "OSError" "No space left on device")
           [] ["processor saved"]
           ["processor saved"; "poster save tried"]);
    reflexivity.
Defined.

(** The poster does not reach the service: the restriction was asked
    before, and nothing is returned. *)
Lemma post_stops_at_first_failure_witness :
  post offline_state "hello" idle
  = (Raise (Exception "ConnectionError" "service unreachable"),
     mkSigma (world idle ++ ["post tried"]) (readers idle) (writers idle)
       (calls idle ++ [ProcessorToInternal; RestrictionCheck; PosterPost])).
Proof.
  apply (post_stops_at_first_failure offline_state "hello" idle
           (Exception "ConnectionError" "service unreachable")
           (world idle ++ ["post tried"])
           [ProcessorToInternal; RestrictionCheck; PosterPost]).
  right. right. exists "hello", (world idle), (world idle).
  repeat split; reflexivity.
Defined.

(** The scorer gives the fetched submission 7, the modifier doubles
    it. *)
Lemma score_runs_scorer_then_modifier_witness :
  score strict_state (mkUUID 13368) idle
  = (Ok 14,
     mkSigma (world idle) (readers idle) (writers idle)
       (calls idle ++ [ClientSubmission; ScorerScore; ScoreModifierModify])).
Proof.
  apply (score_runs_scorer_then_modifier strict_state (mkUUID 13368) "abc"
           idle (Ok 14) (world idle)
           [ClientSubmission; ScorerScore; ScoreModifierModify]).
  - reflexivity.
  - apply (score_of_modifier strict_state "abc" (world idle)
             (submission_of "abc" "fetched") (world idle) 7 (world idle)
             doubling_modifier (Ok 14) (world idle));
      reflexivity.
Defined.

Lemma scrap_only_reads_witness :
  world (drain (scrap state None None None idle)).2 = world idle
  /\ forall k,
       world (gen_sigma (advance k (scrap state None None None idle)))
       = world idle
       /\ world (aclose (advance k (scrap state None None None idle)))
          = world idle.
Proof.
  apply (scrap_only_reads state None None None idle).
  repeat split.
  - intros s w. simpl. by destruct (snd s =? "deleted")%string.
  - intros m Hm. discriminate Hm.
  - intros s w. simpl. by destruct (snd s =? "")%string.
Defined.

(** The pool of the scorer was released before: the second cleanup stops
    at the scorer and leaves the client open. *)
Lemma cleanup_stops_at_first_failure_witness :
  cleanup pooled_state released
  = (Raise (Exception "RuntimeError" "pool already released"),
     mkSigma (world released ++ ["processor cleaned"])
       (readers released) (writers released)
       (calls released ++ [SlotCleanup "processor"; SlotCleanup "scorer"])).
Proof.
  apply (cleanup_stops_at_first_failure pooled_state
           [(SlotCleanup "processor",
             fun w => (Ok tt, w ++ ["processor cleaned"]))]
           (SlotCleanup "scorer")
           (fun w =>
              if existsb (String.eqb "pool released") w
              then (Raise (Exception "RuntimeError" "pool already released"),
                    w)
              else (Ok tt, w ++ ["pool released"]))
           [(ClientClose, reddit_close (client pooled_state))]
           (Exception "RuntimeError" "pool already released")
           released
           (world released ++ ["processor cleaned"])
           (world released ++ ["processor cleaned"]));
    reflexivity.
Defined.

End MoreWitnesses.
